(** * cross-seed: match assessment and decision cache

    A shallow embedding of the decision code of cross-seed
    (compareFileTrees, sizeDoesMatch, assessResultHelper,
    assessAndSaveResults, assessResultCaching) together with the
    properties of its decision cache.

    JavaScript numbers are IEEE-754 binary64 values; the size filter is
    therefore embedded over Rocq's primitive floats, which are the same
    binary64 numbers with the same round-to-nearest-even operations.
    The lowdb document [db.data.decisions] (an object of objects) is a
    finite map of finite maps: the map holds the entries the code reaches by
    [db.data.decisions[name][Guid]].  For a searchee name and a guid that
    are no property names inherited from [Object.prototype] (see
    [own_keys]) these are own properties of the document; [db.write()]
    persists the own properties only (see [own_part]).  The folder of
    [*.cached.torrent] files is a finite map keyed by the info hash that
    forms the file name. *)

From Stdlib Require Import ZArith QArith Bool Floats.
From stdpp Require Import base option list gmap strings.

Local Open Scope Z_scope.

(** ** Data model *)

(** Modelled from the spec: the enumeration [Decision] of constants.ts,
    which is not among the sources.  Its members are the six that the
    decision code names, a closed enumeration of string constants. *)
Inductive Decision : Set :=
| MATCH
| SIZE_MISMATCH
| NO_DOWNLOAD_LINK
| DOWNLOAD_FAILED
| INFO_HASH_ALREADY_EXISTS
| FILE_TREE_MISMATCH.

#[global] Instance Decision_eq_dec : EqDecision Decision.
Proof. solve_decision. Defined.

(** Modelled from the spec: one element of [Metafile.files] and of
    [Searchee.files] (parse-torrent and searchee.ts are not among the
    sources), with the two fields the comparator reads.  A length is a
    whole number of bytes. *)
Module File.
Record t : Set := mk { path : string; length : Z }.
End File.

(** Modelled from the spec: parse-torrent's [Metafile], with the fields the
    decision code reads. *)
Module Metafile.
Record t : Set := mk { infoHash : string; files : list File.t }.
End Metafile.

(** Modelled from the spec: [Searchee] of searchee.ts, with the fields the
    decision code reads; [length] is the total length, a JavaScript
    number. *)
Module Searchee.
Record t : Set := mk { name : string; files : list File.t; length : float }.
End Searchee.

(** The fields of [ProwlarrResult] that [assessResultCaching] destructures.
    [Link] is tested for truthiness, so an absent link is [None] and the
    empty string is falsy as well. *)
Module ProwlarrResult.
Record t : Set := mk {
  Guid : string;
  Title : string;
  IndexerId : Z;
  Link : option string;
  Size : float
}.
End ProwlarrResult.

(** Modelled from the spec: [DecisionEntry] of db.ts, which is not among
    the sources; the fields are those the decision code writes, [infoHash]
    being an optional property. *)
Module DecisionEntry.
Record t : Set := mk {
  decision : Decision;
  lastSeen : Z;
  firstSeen : Z;
  infoHash : option string
}.

Definition with_decision (d : Decision) (e : t) : t :=
  mk d (lastSeen e) (firstSeen e) (infoHash e).
Definition with_lastSeen (now : Z) (e : t) : t :=
  mk (decision e) now (firstSeen e) (infoHash e).
Definition with_infoHash (h : string) (e : t) : t :=
  mk (decision e) (lastSeen e) (firstSeen e) (Some h).
End DecisionEntry.

Module ResultAssessment.
Record t : Set := mk { decision : Decision; info : option Metafile.t }.
End ResultAssessment.

(** ** FileTreeComparator *)

(** The closure [cmp] of [compareFileTrees]: strict equality of both
    fields. *)
Definition cmp (elOfA elOfB : File.t) : bool :=
  let lengthsAreEqual := bool_decide (File.length elOfB = File.length elOfA) in
  let pathsAreEqual := bool_decide (File.path elOfB = File.path elOfA) in
  lengthsAreEqual && pathsAreEqual.

(** [candidate.files.every(a => searchee.files.some(b => cmp(a, b)))] *)
Definition compareFileTrees (candidate : Metafile.t) (searchee : Searchee.t) : bool :=
  forallb (fun elOfA => existsb (fun elOfB => cmp elOfA elOfB) (Searchee.files searchee))
          (Metafile.files candidate).

(** ** SizeFilter *)

(** What one invocation reads from its surroundings: the runtime
    configuration, the metafile fetcher of torrent.ts (null on any failure)
    and the successive readings of [Date.now()]. *)
Module Env.
Record t : Type := mk {
  fuzzySizeThreshold : float;
  parseTorrentFromURL : string -> option Metafile.t;
  clock : nat -> Z
}.
End Env.

(** [resultSize >= lowerBound] is [lowerBound <= resultSize] on doubles
    (both are false when either side is NaN). *)
Definition sizeDoesMatch (env : Env.t) (resultSize : float) (searchee : Searchee.t) : bool :=
  let fuzzySizeThreshold := Env.fuzzySizeThreshold env in
  let length := Searchee.length searchee in
  let lowerBound := (length - fuzzySizeThreshold * length)%float in
  let upperBound := (length + fuzzySizeThreshold * length)%float in
  (lowerBound <=? resultSize)%float && (resultSize <=? upperBound)%float.

(** ** The mutable world and the effect monad *)

(** The steps an invocation takes, in order, kept as a log beside the
    state.  The first five are the stages of [assessResultHelper]: the call
    of [sizeDoesMatch], the test of [Link], the call of
    [parseTorrentFromURL], the [includes] test and the call of
    [compareFileTrees]. *)
Inductive Event : Set :=
| EvSizeCheck
| EvLinkCheck
| EvFetch (url : string)
| EvExclusionCheck
| EvCompareTrees
| EvTorrentWrite (infoHash : string)
| EvLogReason (decision : Decision) (cached : bool)
| EvFlush.

#[global] Instance Event_eq_dec : EqDecision Event.
Proof. solve_decision. Defined.

Module World.
Record t : Type := mk {
  (** [db.data.decisions], the in-memory document *)
  decisions : gmap string (gmap string DecisionEntry.t);
  (** what the last [db.write()] persisted *)
  flushed : gmap string (gmap string DecisionEntry.t);
  (** the [*.cached.torrent] files, by info hash *)
  torrentCache : gmap string Metafile.t;
  (** how many times [Date.now()] has been read *)
  ticks : nat
}.
End World.

Module Outcome.
Record t (A : Type) : Type := mk {
  value : A;
  world : World.t;
  trace : list Event
}.
Arguments mk {A} _ _ _.
Arguments value {A} _.
Arguments world {A} _.
Arguments trace {A} _.
End Outcome.

(** ** Own and inherited properties of the document *)

(** The property names that every plain object inherits from
    [Object.prototype]. *)
Definition inherited_names : list string :=
  ["constructor"; "__defineGetter__"; "__defineSetter__"; "hasOwnProperty";
   "__lookupGetter__"; "__lookupSetter__"; "isPrototypeOf"; "propertyIsEnumerable";
   "toString"; "valueOf"; "__proto__"; "toLocaleString"]%string.

Definition inherited (k : string) : bool := bool_decide (k ∈ inherited_names).

(** A searchee name and a guid for which [db.data.decisions[name][Guid]]
    reads and writes own properties of the document.  For an inherited
    name the lookup [db.data.decisions[name]] returns a built-in object and
    the assignments land on it; for the guid [__proto__] the assignment
    sets the prototype of the partition. *)
Definition own_keys (name Guid : string) : Prop :=
  inherited name = false /\ inherited Guid = false.

(** The own properties of the document, which is what [JSON.stringify]
    serialises.  In the map of a document the entries under an inherited
    name are those placed on the built-in object that the lookup of the name
    returns (the code creates no partition of such a name), and an entry
    under the guid [__proto__] is the prototype of its partition: neither
    is an own property. *)
Definition own_part (d : gmap string (gmap string DecisionEntry.t))
    : gmap string (gmap string DecisionEntry.t) :=
  filter (fun g_e : string * DecisionEntry.t => g_e.1 <> "__proto__"%string)
    <$> filter (fun n_p : string * gmap string DecisionEntry.t => inherited n_p.1 = false) d.

(** State over [World.t] with a log of the calls made. *)
Definition M (A : Type) : Type := World.t -> Outcome.t A.

#[global] Instance M_ret : MRet M :=
  fun A a w => Outcome.mk a w [].
#[global] Instance M_bind : MBind M :=
  fun A B f m w =>
    let r := m w in
    let r' := f (Outcome.value r) (Outcome.world r) in
    Outcome.mk (Outcome.value r') (Outcome.world r') (Outcome.trace r ++ Outcome.trace r').

Definition emit (e : Event) : M unit :=
  fun w => Outcome.mk tt w [e].

Definition modify_decisions
    (f : gmap string (gmap string DecisionEntry.t) -> gmap string (gmap string DecisionEntry.t))
    : M unit :=
  fun w => Outcome.mk tt
    (World.mk (f (World.decisions w)) (World.flushed w) (World.torrentCache w) (World.ticks w)) [].

(** [Date.now()] *)
Definition Date_now (env : Env.t) : M Z :=
  fun w => Outcome.mk (Env.clock env (World.ticks w))
    (World.mk (World.decisions w) (World.flushed w) (World.torrentCache w) (S (World.ticks w))) [].

(** [db.write()]: the own properties of the document are persisted. *)
Definition db_write : M unit :=
  fun w => Outcome.mk tt
    (World.mk (World.decisions w) (own_part (World.decisions w)) (World.torrentCache w)
              (World.ticks w))
    [EvFlush].

(** [db.data.decisions[name] ??= {}]: a partition is created when the
    lookup of [name] gives nothing, which is never the case for an
    inherited name. *)
Definition ensure_partition (name : string)
    (d : gmap string (gmap string DecisionEntry.t)) : gmap string (gmap string DecisionEntry.t) :=
  match d !! name with
  | Some _ => d
  | None => if inherited name then d else <[name := ∅]> d
  end.

(** [db.data.decisions[name][Guid]], where it finds a cache entry.  What
    the lookup finds of the built-in objects themselves is no cache entry:
    its [decision] is undefined, which the engine treats as no entry.  The
    lookup of the code also finds, for a guid the partition does not own,
    what an invocation for the name [__proto__] has placed on
    [Object.prototype]; the map does not follow that, and agrees with the
    code on an [unpolluted] document. *)
Definition entry_at (d : gmap string (gmap string DecisionEntry.t)) (name Guid : string)
    : option DecisionEntry.t :=
  d !! name ≫= fun p => p !! Guid.

(** No entry has been placed on [Object.prototype], which in the map are
    the entries under the name [__proto__]: every lookup of a guid then
    finds an own property of its partition or nothing. *)
Definition unpolluted (d : gmap string (gmap string DecisionEntry.t)) : Prop :=
  d !! "__proto__"%string = None.

(** [db.data.decisions[name][Guid] = e]; the object the entry is assigned
    to exists whenever the decision code reaches such an assignment.  Under
    [own_keys] it is the partition of the document.  For an inherited name
    it is the built-in object the lookup found: the map keeps the entry
    under the name, where the code reads it back, and [own_part] leaves it
    out of what is persisted. *)
Definition set_entry (name Guid : string) (e : DecisionEntry.t)
    (d : gmap string (gmap string DecisionEntry.t)) : gmap string (gmap string DecisionEntry.t) :=
  <[name := <[Guid := e]> (default ∅ (d !! name))]> d.

(** [db.data.decisions[name][Guid].field = v]; the entry exists whenever
    the decision code reaches such an assignment. *)
Definition update_entry (name Guid : string) (f : DecisionEntry.t -> DecisionEntry.t)
    (d : gmap string (gmap string DecisionEntry.t)) : gmap string (gmap string DecisionEntry.t) :=
  match entry_at d name Guid with
  | Some e => set_entry name Guid (f e) d
  | None => d
  end.

Definition get_entry (name Guid : string) : M (option DecisionEntry.t) :=
  fun w => Outcome.mk (entry_at (World.decisions w) name Guid) w [].

(** [`${infoHash}`] in a template literal: an absent property prints as
    the word undefined. *)
Definition template (infoHash : option string) : string :=
  default "undefined"%string infoHash.

(** [infoHashesToExclude.includes(x)]; no string equals [undefined]. *)
Definition includes (hashes : list string) (x : option string) : bool :=
  match x with
  | Some h => bool_decide (h ∈ hashes)
  | None => false
  end.

(** [a && b] where [b] reads the file system: [b] runs only if [a] holds. *)
Definition and_then (a : bool) (b : M bool) : M bool :=
  if a then b else mret false.

(** ** TorrentFileCache *)

(** Modelled from the spec: [parseTorrentFromFilename] of torrent.ts and
    [parseTorrent.toTorrentFile] are not among the sources; by the
    round-trip law reading a cached file back gives the metafile that was
    written.  The three functions below address the file
    [`${infoHash}.cached.torrent`] of one fixed folder, so the store maps the
    info hash in that name to the metafile the file holds. *)
Definition existsInTorrentCache (infoHash : option string) : M bool :=
  fun w => Outcome.mk (bool_decide (is_Some (World.torrentCache w !! template infoHash))) w [].

Definition getCachedTorrentFile (infoHash : option string) : M (option Metafile.t) :=
  fun w => Outcome.mk (World.torrentCache w !! template infoHash) w [].

Definition cacheTorrentFile (meta : Metafile.t) : M unit :=
  fun w => Outcome.mk tt
    (World.mk (World.decisions w) (World.flushed w)
              (<[Metafile.infoHash meta := meta]> (World.torrentCache w)) (World.ticks w))
    [EvTorrentWrite (Metafile.infoHash meta)].

(** ** AssessmentEngine *)

(** [createReasonLogger(...)(decision, cached)]: nothing is logged for a
    match. *)
Definition logReason (decision : Decision) (cached : bool) : M unit :=
  match decision with
  | MATCH => mret tt
  | _ => emit (EvLogReason decision cached)
  end.

(** [!Link] is false exactly for a non-empty string. *)
Definition truthy (Link : option string) : option string :=
  match Link with
  | Some EmptyString => None
  | other => other
  end.

Definition reject (d : Decision) : M ResultAssessment.t :=
  mret (ResultAssessment.mk d None).

Definition assessResultHelper (env : Env.t) (result : ProwlarrResult.t)
    (searchee : Searchee.t) (hashesToExclude : list string) : M ResultAssessment.t :=
  emit EvSizeCheck;;
  if negb (sizeDoesMatch env (ProwlarrResult.Size result) searchee)
  then reject SIZE_MISMATCH
  else
    emit EvLinkCheck;;
    match truthy (ProwlarrResult.Link result) with
    | None => reject NO_DOWNLOAD_LINK
    | Some Link =>
        emit (EvFetch Link);;
        match Env.parseTorrentFromURL env Link with
        | None => reject DOWNLOAD_FAILED
        | Some info =>
            emit EvExclusionCheck;;
            if includes hashesToExclude (Some (Metafile.infoHash info))
            then reject INFO_HASH_ALREADY_EXISTS
            else
              emit EvCompareTrees;;
              if negb (compareFileTrees info searchee)
              then reject FILE_TREE_MISMATCH
              else mret (ResultAssessment.mk MATCH (Some info))
        end
    end.

Definition assessAndSaveResults (env : Env.t) (result : ProwlarrResult.t)
    (searchee : Searchee.t) (Guid : string) (infoHashesToExclude : list string)
    : M ResultAssessment.t :=
  assessment ← assessResultHelper env result searchee infoHashesToExclude;
  lastSeen ← Date_now env;
  firstSeen ← Date_now env;
  modify_decisions (set_entry (Searchee.name searchee) Guid
    (DecisionEntry.mk (ResultAssessment.decision assessment) lastSeen firstSeen None));;
  (* a MATCH assessment always carries its metafile *)
  match ResultAssessment.decision assessment, ResultAssessment.info assessment with
  | MATCH, Some info =>
      modify_decisions (update_entry (Searchee.name searchee) Guid
        (DecisionEntry.with_infoHash (Metafile.infoHash info)));;
      cacheTorrentFile info
  | _, _ => mret tt
  end;;
  mret assessment.

(** [!cacheEntry?.decision] holds exactly when there is no entry: every
    member of [Decision] is a non-empty string. *)
Definition assessResultCaching (env : Env.t) (result : ProwlarrResult.t)
    (searchee : Searchee.t) (infoHashesToExclude : list string) : M ResultAssessment.t :=
  let Guid := ProwlarrResult.Guid result in
  modify_decisions (ensure_partition (Searchee.name searchee));;
  cacheEntry ← get_entry (Searchee.name searchee) Guid;
  assessment ←
    match cacheEntry with
    | None =>
        assessment ← assessAndSaveResults env result searchee Guid infoHashesToExclude;
        logReason (ResultAssessment.decision assessment) false;;
        mret assessment
    | Some cacheEntry =>
        if bool_decide (DecisionEntry.decision cacheEntry = DOWNLOAD_FAILED) then
          assessment ← assessAndSaveResults env result searchee Guid infoHashesToExclude;
          logReason (ResultAssessment.decision assessment) false;;
          mret assessment
        else if bool_decide (DecisionEntry.decision cacheEntry = MATCH)
                && includes infoHashesToExclude (DecisionEntry.infoHash cacheEntry) then
          (* has been added since the last run *)
          modify_decisions (update_entry (Searchee.name searchee) Guid
            (DecisionEntry.with_decision INFO_HASH_ALREADY_EXISTS));;
          mret (ResultAssessment.mk INFO_HASH_ALREADY_EXISTS None)
        else
          cachedMatch ← and_then (bool_decide (DecisionEntry.decision cacheEntry = MATCH))
                                 (existsInTorrentCache (DecisionEntry.infoHash cacheEntry));
          if (cachedMatch : bool) then
            info ← getCachedTorrentFile (DecisionEntry.infoHash cacheEntry);
            (* cached match *)
            mret (ResultAssessment.mk (DecisionEntry.decision cacheEntry) info)
          else if bool_decide (DecisionEntry.decision cacheEntry = MATCH) then
            assessment ← assessAndSaveResults env result searchee Guid infoHashesToExclude;
            logReason (ResultAssessment.decision assessment) false;;
            mret assessment
          else
            (* cached rejection *)
            logReason (DecisionEntry.decision cacheEntry) true;;
            mret (ResultAssessment.mk (DecisionEntry.decision cacheEntry) None)
    end;
  now ← Date_now env;
  modify_decisions (update_entry (Searchee.name searchee) Guid (DecisionEntry.with_lastSeen now));;
  db_write;;
  mret assessment.

(** ** The six cases of the cache policy *)

Inductive Branch : Set :=
| NoEntry            (* no cache entry *)
| RetryFailed        (* cached DOWNLOAD_FAILED *)
| ExclusionFlip      (* cached MATCH whose info hash is now excluded *)
| CachedMatch        (* cached MATCH, torrent file still cached *)
| RegenerateMatch    (* cached MATCH, torrent file gone *)
| CachedRejection.   (* any other cached decision *)

Definition branch_of (w : World.t) (name Guid : string) (infoHashesToExclude : list string)
    : Branch :=
  match entry_at (World.decisions w) name Guid with
  | None => NoEntry
  | Some e =>
      if bool_decide (DecisionEntry.decision e = DOWNLOAD_FAILED) then RetryFailed
      else if bool_decide (DecisionEntry.decision e = MATCH) then
        if includes infoHashesToExclude (DecisionEntry.infoHash e) then ExclusionFlip
        else if bool_decide (is_Some (World.torrentCache w !! template (DecisionEntry.infoHash e)))
        then CachedMatch else RegenerateMatch
      else CachedRejection
  end.

(** The branches that call [assessAndSaveResults]. *)
Definition reassesses (b : Branch) : bool :=
  match b with
  | NoEntry | RetryFailed | RegenerateMatch => true
  | _ => false
  end.

(** ** Observations on a trace *)

Definition is_fetch (e : Event) : bool :=
  match e with EvFetch _ => true | _ => false end.

Definition is_stage (e : Event) : bool :=
  match e with
  | EvSizeCheck | EvLinkCheck | EvFetch _ | EvExclusionCheck | EvCompareTrees => true
  | _ => false
  end.

(** The metafile fetcher was invoked. *)
Definition attempts_fetch (tr : list Event) : bool := existsb is_fetch tr.

(** Some stage of the full assessment was evaluated. *)
Definition evaluates_stage (tr : list Event) : bool := existsb is_stage tr.

(** ** The stages of the full assessment, as the specification lists them *)

Inductive Stage : Set :=
| SizeCheck
| LinkPresence
| MetafileFetch
| ExclusionCheck
| FileTreeComparison.

Definition stage_order : list Stage :=
  [SizeCheck; LinkPresence; MetafileFetch; ExclusionCheck; FileTreeComparison].

Definition rejection_of (st : Stage) : Decision :=
  match st with
  | SizeCheck => SIZE_MISMATCH
  | LinkPresence => NO_DOWNLOAD_LINK
  | MetafileFetch => DOWNLOAD_FAILED
  | ExclusionCheck => INFO_HASH_ALREADY_EXISTS
  | FileTreeComparison => FILE_TREE_MISMATCH
  end.

Section Stages.
Variables (env : Env.t) (result : ProwlarrResult.t) (searchee : Searchee.t)
          (hashesToExclude : list string).

(** What the fetcher answers for this candidate's link, if it has one. *)
Definition fetched : option Metafile.t :=
  truthy (ProwlarrResult.Link result) ≫= Env.parseTorrentFromURL env.

Definition stage_passes (st : Stage) : bool :=
  match st with
  | SizeCheck => sizeDoesMatch env (ProwlarrResult.Size result) searchee
  | LinkPresence => bool_decide (is_Some (truthy (ProwlarrResult.Link result)))
  | MetafileFetch => bool_decide (is_Some fetched)
  | ExclusionCheck =>
      negb (includes hashesToExclude (Metafile.infoHash <$> fetched))
  | FileTreeComparison =>
      from_option (fun info => compareFileTrees info searchee) false fetched
  end.

(** The stages evaluated: each one in order, stopping after the first
    that fails. *)
Fixpoint evaluated (stages : list Stage) : list Stage :=
  match stages with
  | [] => []
  | st :: rest => st :: (if stage_passes st then evaluated rest else [])
  end.

Definition first_failing (stages : list Stage) : option Stage :=
  List.find (fun st => negb (stage_passes st)) stages.

Definition staged_assessment : ResultAssessment.t :=
  match first_failing stage_order with
  | Some st => ResultAssessment.mk (rejection_of st) None
  | None => ResultAssessment.mk MATCH fetched
  end.

Definition stage_event (st : Stage) : Event :=
  match st with
  | SizeCheck => EvSizeCheck
  | LinkPresence => EvLinkCheck
  | MetafileFetch => EvFetch (default EmptyString (truthy (ProwlarrResult.Link result)))
  | ExclusionCheck => EvExclusionCheck
  | FileTreeComparison => EvCompareTrees
  end.
End Stages.

(** ** The world after an invocation, in closed form *)

(** The entry written by [assessAndSaveResults]: [lastSeen] is read from
    the clock before [firstSeen]. *)
Definition fresh_entry (env : Env.t) (a : ResultAssessment.t) (t : nat) : DecisionEntry.t :=
  DecisionEntry.mk (ResultAssessment.decision a) (Env.clock env t) (Env.clock env (S t))
    match ResultAssessment.decision a, ResultAssessment.info a with
    | MATCH, Some info => Some (Metafile.infoHash info)
    | _, _ => None
    end.

Definition cache_with (a : ResultAssessment.t) (tc : gmap string Metafile.t)
    : gmap string Metafile.t :=
  match ResultAssessment.decision a, ResultAssessment.info a with
  | MATCH, Some info => <[Metafile.infoHash info := info]> tc
  | _, _ => tc
  end.

Definition write_events (a : ResultAssessment.t) : list Event :=
  match ResultAssessment.decision a, ResultAssessment.info a with
  | MATCH, Some info => [EvTorrentWrite (Metafile.infoHash info)]
  | _, _ => []
  end.

Definition log_events (d : Decision) (cached : bool) : list Event :=
  match d with
  | MATCH => []
  | _ => [EvLogReason d cached]
  end.

(** The world an invocation leaves behind when it runs the full
    assessment. *)
Definition reassessed_world (env : Env.t) (a : ResultAssessment.t)
    (name Guid : string) (w : World.t) : World.t :=
  let t := World.ticks w in
  let d := set_entry name Guid
             (DecisionEntry.with_lastSeen (Env.clock env (S (S t))) (fresh_entry env a t))
             (ensure_partition name (World.decisions w)) in
  World.mk d (own_part d) (cache_with a (World.torrentCache w)) (S (S (S t))).

(** The world an invocation leaves behind when it answers from the cache,
    with [e'] the entry it stores (before [lastSeen] is refreshed). *)
Definition cached_world (env : Env.t) (e' : DecisionEntry.t)
    (name Guid : string) (w : World.t) : World.t :=
  let t := World.ticks w in
  let d := set_entry name Guid (DecisionEntry.with_lastSeen (Env.clock env t) e')
             (ensure_partition name (World.decisions w)) in
  World.mk d (own_part d) (World.torrentCache w) (S t).

(** Every invocation is one of four shapes; the three branches that call
    [assessAndSaveResults] share one. *)
Inductive caching_view (env : Env.t) (result : ProwlarrResult.t) (searchee : Searchee.t)
    (excl : list string) (w : World.t) : Outcome.t ResultAssessment.t -> Prop :=
| view_reassess :
    let a := staged_assessment env result searchee excl in
    reassesses (branch_of w (Searchee.name searchee) (ProwlarrResult.Guid result) excl) = true ->
    caching_view env result searchee excl w
      (Outcome.mk a
         (reassessed_world env a (Searchee.name searchee) (ProwlarrResult.Guid result) w)
         (map (stage_event result) (evaluated env result searchee excl stage_order)
            ++ write_events a ++ log_events (ResultAssessment.decision a) false ++ [EvFlush]))
| view_flip e :
    entry_at (World.decisions w) (Searchee.name searchee) (ProwlarrResult.Guid result) = Some e ->
    DecisionEntry.decision e = MATCH ->
    includes excl (DecisionEntry.infoHash e) = true ->
    caching_view env result searchee excl w
      (Outcome.mk (ResultAssessment.mk INFO_HASH_ALREADY_EXISTS None)
         (cached_world env (DecisionEntry.with_decision INFO_HASH_ALREADY_EXISTS e)
            (Searchee.name searchee) (ProwlarrResult.Guid result) w)
         [EvFlush])
| view_cached_match e :
    entry_at (World.decisions w) (Searchee.name searchee) (ProwlarrResult.Guid result) = Some e ->
    DecisionEntry.decision e = MATCH ->
    includes excl (DecisionEntry.infoHash e) = false ->
    is_Some (World.torrentCache w !! template (DecisionEntry.infoHash e)) ->
    caching_view env result searchee excl w
      (Outcome.mk
         (ResultAssessment.mk MATCH (World.torrentCache w !! template (DecisionEntry.infoHash e)))
         (cached_world env e (Searchee.name searchee) (ProwlarrResult.Guid result) w)
         [EvFlush])
| view_rejection e :
    entry_at (World.decisions w) (Searchee.name searchee) (ProwlarrResult.Guid result) = Some e ->
    DecisionEntry.decision e <> DOWNLOAD_FAILED ->
    DecisionEntry.decision e <> MATCH ->
    caching_view env result searchee excl w
      (Outcome.mk (ResultAssessment.mk (DecisionEntry.decision e) None)
         (cached_world env e (Searchee.name searchee) (ProwlarrResult.Guid result) w)
         (log_events (DecisionEntry.decision e) true ++ [EvFlush])).

(** Case analysis on a [caching_view]. *)
Ltac view_cases V :=
  destruct V as [a Hb | e He Hm Hx | e He Hm Hx Hc | e He Hf Hm].

(** ** Well-formed cache entries *)



(** ** Runs of invocations *)

(** One call of the engine: its configuration and fetcher at that time, the
    candidate, the searchee and the exclusion set. *)
Module Invocation.
Record t : Type := mk {
  env : Env.t;
  result : ProwlarrResult.t;
  searchee : Searchee.t;
  excl : list string
}.
End Invocation.

Definition invoke (i : Invocation.t) (w : World.t) : Outcome.t ResultAssessment.t :=
  assessResultCaching (Invocation.env i) (Invocation.result i) (Invocation.searchee i)
                      (Invocation.excl i) w.

(** Is the invocation for searchee [n] and guid [g]? *)
Definition targets (i : Invocation.t) (n g : string) : Prop :=
  Searchee.name (Invocation.searchee i) = n /\ ProwlarrResult.Guid (Invocation.result i) = g.

(** The decisions returned by a run of invocations, and the final world. *)
Fixpoint run_all (invs : list Invocation.t) (w : World.t)
    : list (Invocation.t * Decision) * World.t :=
  match invs with
  | [] => ([], w)
  | i :: rest =>
      let o := invoke i w in
      let r := run_all rest (Outcome.world o) in
      ((i, ResultAssessment.decision (Outcome.value o)) :: fst r, snd r)
  end.

(** The outcome of every invocation of a run, with its trace. *)
Fixpoint run_log (invs : list Invocation.t) (w : World.t)
    : list (Invocation.t * Outcome.t ResultAssessment.t) :=
  match invs with
  | [] => []
  | i :: rest =>
      let o := invoke i w in
      (i, o) :: run_log rest (Outcome.world o)
  end.

(** ** Exact values of doubles *)

(** The rational number a finite double stands for. *)
Definition exact (x : float) : Q :=
  match Prim2SF x with
  | S754_finite s m e => (if s then -1 else 1) * inject_Z (Zpos m) * Qpower 2 e
  | _ => 0
  end.

Definition size_env (fuzzySizeThreshold : float) : Env.t :=
  Env.mk fuzzySizeThreshold (fun _ => None) (fun _ => 0).
Definition sized (length : float) : Searchee.t := Searchee.mk "" [] length.

(** ** Concrete scenarios *)

Definition episode : File.t := File.mk "Show.S01/e01.mkv" 700.
Definition sample : File.t := File.mk "Show.S01/sample.mkv" 5.
Definition show_meta : Metafile.t := Metafile.mk "abc" [episode].
Definition show : Searchee.t := Searchee.mk "Show.S01" [episode; sample] 705%float.
Definition hit : ProwlarrResult.t :=
  ProwlarrResult.mk "guid-1" "Show S01" 3 (Some "http://indexer/1"%string) 705%float.
Definition threshold : float := 0x1.47ae147ae147bp-6%float. (* 0.02 *)
Definition online : Env.t :=
  Env.mk threshold (fun _ => Some show_meta) (fun n => 1000 + Z.of_nat n).
Definition offline : Env.t :=
  Env.mk threshold (fun _ => None) (fun n => 1000 + Z.of_nat n).
Definition stored (d : Decision) (infoHash : option string) : World.t :=
  let doc := {[ "Show.S01"%string := {[ "guid-1"%string := DecisionEntry.mk d 7 5 infoHash ]} ]} in
  World.mk doc doc ∅ 0.
Definition empty_world : World.t := World.mk ∅ ∅ ∅ 0.

(** A document with entries beside that of the pair ["Show.S01"],
    ["guid-1"]: another guid of the same searchee, and another searchee. *)
Definition shelf : World.t :=
  let doc :=
    {[ "Show.S01"%string :=
         {[ "guid-1"%string := DecisionEntry.mk SIZE_MISMATCH 7 5 None;
            "guid-2"%string := DecisionEntry.mk FILE_TREE_MISMATCH 8 6 None ]};
       "Show.S02"%string :=
         {[ "guid-1"%string := DecisionEntry.mk MATCH 9 4 (Some "def"%string) ]} ]} in
  World.mk doc doc ∅ 0.

(** A searchee whose name is a property name inherited from
    [Object.prototype]. *)
Definition constructor_show : Searchee.t :=
  Searchee.mk "constructor" [episode; sample] 705%float.

(** The example of the specification: a searchee of 1,000,000,000 bytes, a
    candidate of 1,010,000,000 bytes with the same file tree, tolerance
    0.02. *)
Definition movie_file : File.t := File.mk "Movie.2020/movie.mkv" 1000000000.
Definition movie_meta : Metafile.t := Metafile.mk "c0ffee" [movie_file].
Definition movie : Searchee.t := Searchee.mk "Movie.2020" [movie_file] 1000000000%float.
Definition movie_hit : ProwlarrResult.t :=
  ProwlarrResult.mk "guid-7" "Movie 2020" 1 (Some "http://indexer/7"%string) 1010000000%float.
Definition movie_env : Env.t :=
  Env.mk threshold (fun _ => Some movie_meta) (fun n => 1000 + Z.of_nat n).

(** ** Further observations on a trace *)

Definition is_flush (e : Event) : bool :=
  match e with EvFlush => true | _ => false end.

Definition is_torrent_write (e : Event) : bool :=
  match e with EvTorrentWrite _ => true | _ => false end.

Definition is_log (e : Event) : bool :=
  match e with EvLogReason _ _ => true | _ => false end.

(** How many steps of a trace are of a given kind. *)
Definition count (p : Event -> bool) (tr : list Event) : nat :=
  length (List.filter p tr).

(** ** Invariants of the two stores *)

(** Every cached torrent file is stored under its own info hash. *)
Definition cache_keyed (tc : gmap string Metafile.t) : Prop :=
  forall h m, tc !! h = Some m -> Metafile.infoHash m = h.

(** Every MATCH entry has its torrent file in the cache. *)
Definition matches_cached (w : World.t) : Prop :=
  forall n g e,
    entry_at (World.decisions w) n g = Some e ->
    DecisionEntry.decision e = MATCH ->
    is_Some (World.torrentCache w !! template (DecisionEntry.infoHash e)).

(** A clock that never runs backwards. *)
Definition monotone (clock : nat -> Z) : Prop :=
  forall i j, (i <= j)%nat -> clock i <= clock j.

(** ** Search titles (prowlarr.ts) *)

(** A JavaScript string as its sequence of UTF-16 code units; the regular
    expressions below have no [u] flag and work on code units. *)
Definition space : N := 32%N.

(** The class [[.()[\]]]. *)
Definition isPunctuation (c : N) : bool :=
  (c =? 46)%N || (c =? 40)%N || (c =? 41)%N || (c =? 91)%N || (c =? 93)%N.

(** The class [\s], which is also what [trim] removes: the WhiteSpace and
    LineTerminator code points of ECMAScript. *)
Definition isWhiteSpace (c : N) : bool :=
  (c =? 9)%N || (c =? 10)%N || (c =? 11)%N || (c =? 12)%N || (c =? 13)%N
  || (c =? 32)%N || (c =? 160)%N || (c =? 5760)%N
  || ((8192 <=? c)%N && (c <=? 8202)%N)
  || (c =? 8232)%N || (c =? 8233)%N || (c =? 8239)%N || (c =? 8287)%N
  || (c =? 12288)%N || (c =? 65279)%N.

(** [.replace(/[.()[\]]/g, " ")] *)
Definition replacePunctuation (s : list N) : list N :=
  map (fun c => if isPunctuation c then space else c) s.

(** [.replace(/\s+/g, " ")]: every maximal run of white space becomes one
    space; [inRun] tells that the previous code unit was white space. *)
Fixpoint collapseFrom (inRun : bool) (s : list N) : list N :=
  match s with
  | [] => []
  | c :: rest =>
      if isWhiteSpace c
      then if inRun then collapseFrom true rest else space :: collapseFrom true rest
      else c :: collapseFrom false rest
  end.

Definition collapseWhiteSpace (s : list N) : list N := collapseFrom false s.

(** [.trim()], as removal of the white space at the start and at the end. *)
Fixpoint trimStart (s : list N) : list N :=
  match s with
  | [] => []
  | c :: rest => if isWhiteSpace c then trimStart rest else s
  end.

Fixpoint trimEnd (s : list N) : list N :=
  match s with
  | [] => []
  | c :: rest =>
      match trimEnd rest with
      | [] => if isWhiteSpace c then [] else [c]
      | kept => c :: kept
      end
  end.

Definition trim (s : list N) : list N := trimEnd (trimStart s).

(** The chain [.replace(...).replace(...).trim()] of
    [reformatTitleForSearching]. *)
Definition cleanTitle (s : list N) : list N :=
  trim (collapseWhiteSpace (replacePunctuation s)).

(** [reformatTitleForSearching]; the three regular expressions of
    constants.ts are not among the sources and are taken as the functions
    that give the text of the first match, if any ([name.match(R)[0]]). *)
Definition reformatTitleForSearching
    (SEASON_REGEX MOVIE_REGEX EP_REGEX : list N -> option (list N)) (name : list N) : list N :=
  let seasonMatch := SEASON_REGEX name in
  let movieMatch := MOVIE_REGEX name in
  let episodeMatch := EP_REGEX name in
  let fullMatch :=
    match episodeMatch with
    | Some m => m
    | None =>
        match seasonMatch with
        | Some m => m
        | None =>
            match movieMatch with
            | Some m => m
            | None => name
            end
        end
    end in
  cleanTitle fullMatch.

(** A title in the form the search query is sent in: no character of
    [.()[]], no white space other than the space, none at either end and
    never two in a row. *)
Definition clean (r : list N) : Prop :=
  Forall (fun c => isPunctuation c = false /\ (isWhiteSpace c = true -> c = space)) r
  /\ head r <> Some space
  /\ last r <> Some space
  /\ (forall l1 l2, r <> l1 ++ [space; space] ++ l2).

(** The code units that are neither white space nor replaced punctuation. *)
Definition letters (s : list N) : list N :=
  List.filter (fun c => negb (isWhiteSpace c || isPunctuation c)) s.

(** "Show.Name.S01 (1080p)  [x]" and its cleaned form "Show Name S01 1080p x". *)
Definition raw_title : list N :=
  [83; 104; 111; 119; 46; 78; 97; 109; 101; 46; 83; 48; 49; 32; 40; 49; 48; 56; 48; 112; 41;
   32; 32; 91; 120; 93]%N.
Definition cleaned_title : list N :=
  [83; 104; 111; 119; 32; 78; 97; 109; 101; 32; 83; 48; 49; 32; 49; 48; 56; 48; 112; 32; 120]%N.

(** ** Runs with their traces *)



(** * Properties *)

(** ** Lemmas on the decision document *)

Section Document.
Implicit Types (d : gmap string (gmap string DecisionEntry.t)) (e : DecisionEntry.t).
Implicit Types (n g : string).

Lemma entry_at_ensure_partition d n n' g' :
  entry_at (ensure_partition n d) n' g' = entry_at d n' g'.
Proof.
  unfold ensure_partition, entry_at.
  destruct (d !! n) eqn:E; [done|].
  destruct (inherited n); [done|].
  destruct (decide (n = n')) as [->|Hne].
  - rewrite lookup_insert_eq, E. done.
  - by rewrite lookup_insert_ne.
Qed.

Lemma entry_at_set_entry_eq d n g e :
  entry_at (set_entry n g e d) n g = Some e.
Proof.
  unfold set_entry, entry_at. rewrite lookup_insert_eq. simpl.
  apply lookup_insert_eq.
Qed.

Lemma entry_at_set_entry_ne d n g e n' g' :
  (n', g') ≠ (n, g) -> entry_at (set_entry n g e d) n' g' = entry_at d n' g'.
Proof.
  intros Hne. unfold set_entry, entry_at.
  destruct (decide (n = n')) as [->|Hn].
  - rewrite lookup_insert_eq. simpl.
    rewrite lookup_insert_ne by congruence.
    destruct (d !! n'); simpl; [done|]. apply lookup_empty.
  - by rewrite lookup_insert_ne.
Qed.

Lemma set_entry_set_entry d n g e1 e2 :
  set_entry n g e2 (set_entry n g e1 d) = set_entry n g e2 d.
Proof.
  unfold set_entry. rewrite lookup_insert_eq. simpl.
  by rewrite !insert_insert_eq.
Qed.

Lemma update_entry_set_entry d n g e f :
  update_entry n g f (set_entry n g e d) = set_entry n g (f e) d.
Proof.
  unfold update_entry. rewrite entry_at_set_entry_eq.
  apply set_entry_set_entry.
Qed.

Lemma update_entry_Some d n g e f :
  entry_at d n g = Some e -> update_entry n g f d = set_entry n g (f e) d.
Proof. unfold update_entry. by intros ->. Qed.

(** Partitions other than [n] are the same objects after the update. *)
Lemma set_entry_partition_ne d n g e n' :
  n' ≠ n -> set_entry n g e d !! n' = d !! n'.
Proof. intros Hne. unfold set_entry. by rewrite lookup_insert_ne. Qed.

Lemma ensure_partition_ne d n n' :
  n' ≠ n -> ensure_partition n d !! n' = d !! n'.
Proof.
  intros Hne. unfold ensure_partition.
  destruct (d !! n); [done|].
  destruct (inherited n); [done|]. by rewrite lookup_insert_ne.
Qed.
End Document.

(** ** Closed forms of the engine's functions *)

Lemma assessResultHelper_staged env result searchee hashesToExclude w :
  assessResultHelper env result searchee hashesToExclude w =
  Outcome.mk (staged_assessment env result searchee hashesToExclude) w
             (map (stage_event result)
                  (evaluated env result searchee hashesToExclude stage_order)).
Proof.
  unfold assessResultHelper, staged_assessment, first_failing, reject.
  unfold mbind, M_bind, mret, M_ret, emit. cbn [stage_order evaluated List.find map stage_passes].
  destruct (sizeDoesMatch env _ searchee); cbn; [|done].
  unfold stage_event, fetched.
  destruct (truthy (ProwlarrResult.Link result)) as [Link|]; cbn; [|done].
  destruct (Env.parseTorrentFromURL env Link) as [info|]; cbn; [|done].
  destruct (bool_decide (Metafile.infoHash info ∈ hashesToExclude)); cbn; [done|].
  destruct (compareFileTrees info searchee); cbn; done.
Qed.

Lemma logReason_eq d cached w :
  logReason d cached w = Outcome.mk tt w (log_events d cached).
Proof. by destruct d. Qed.

Lemma assessAndSaveResults_eq env result searchee Guid excl w :
  let a := staged_assessment env result searchee excl in
  assessAndSaveResults env result searchee Guid excl w =
  Outcome.mk a
    (World.mk
       (set_entry (Searchee.name searchee) Guid (fresh_entry env a (World.ticks w))
                  (World.decisions w))
       (World.flushed w)
       (cache_with a (World.torrentCache w))
       (S (S (World.ticks w))))
    (map (stage_event result) (evaluated env result searchee excl stage_order)
       ++ write_events a).
Proof.
  intros a. unfold assessAndSaveResults.
  unfold mbind, M_bind. rewrite assessResultHelper_staged. fold a.
  unfold fresh_entry, cache_with, write_events.
  destruct a as [dcs inf].
  destruct dcs, inf; simpl; rewrite ?update_entry_set_entry, ?app_nil_r; reflexivity.
Qed.

#[local] Opaque assessAndSaveResults logReason.

Section Caching.
Variables (env : Env.t) (result : ProwlarrResult.t) (searchee : Searchee.t)
          (excl : list string) (w : World.t).

#[local] Abbreviation name := (Searchee.name searchee).
#[local] Abbreviation Guid := (ProwlarrResult.Guid result).
#[local] Abbreviation a := (staged_assessment env result searchee excl).
#[local] Abbreviation w1 :=
  (World.mk (ensure_partition name (World.decisions w)) (World.flushed w)
            (World.torrentCache w) (World.ticks w)).

(** The frame of [assessResultCaching] around its five-way conditional:
    whatever the conditional did, [lastSeen] is refreshed and the document
    is flushed. *)
Lemma caching_skeleton (inner : option DecisionEntry.t -> M ResultAssessment.t)
    (x : ResultAssessment.t) (w2 : World.t) (tr : list Event) :
  inner (entry_at (World.decisions w) name Guid) w1 = Outcome.mk x w2 tr ->
  (modify_decisions (ensure_partition name);;
   cacheEntry ← get_entry name Guid;
   assessment ← inner cacheEntry;
   now ← Date_now env;
   modify_decisions (update_entry name Guid (DecisionEntry.with_lastSeen now));;
   db_write;;
   mret assessment) w =
  let d := update_entry name Guid
             (DecisionEntry.with_lastSeen (Env.clock env (World.ticks w2)))
             (World.decisions w2) in
  Outcome.mk x (World.mk d (own_part d) (World.torrentCache w2) (S (World.ticks w2)))
             (tr ++ [EvFlush]).
Proof.
  intros Hin.
  unfold mbind, M_bind, get_entry, modify_decisions, Date_now, db_write, mret, M_ret.
  cbn. rewrite entry_at_ensure_partition. rewrite Hin. reflexivity.
Qed.

Lemma reassess_inner (w0 : World.t) :
  (assessment ← assessAndSaveResults env result searchee Guid excl;
   logReason (ResultAssessment.decision assessment) false;;
   mret assessment) w0 =
  Outcome.mk a
    (World.mk (set_entry name Guid (fresh_entry env a (World.ticks w0)) (World.decisions w0))
              (World.flushed w0) (cache_with a (World.torrentCache w0))
              (S (S (World.ticks w0))))
    (map (stage_event result) (evaluated env result searchee excl stage_order)
       ++ write_events a ++ log_events (ResultAssessment.decision a) false).
Proof.
  unfold mbind, M_bind.
  rewrite assessAndSaveResults_eq. cbn.
  rewrite logReason_eq. cbn.
  by rewrite app_nil_r, <- app_assoc.
Qed.

Lemma caching_reassess :
  reassesses (branch_of w name Guid excl) = true ->
  assessResultCaching env result searchee excl w =
  Outcome.mk a (reassessed_world env a name Guid w)
    (map (stage_event result) (evaluated env result searchee excl stage_order)
       ++ write_events a ++ log_events (ResultAssessment.decision a) false ++ [EvFlush]).
Proof.
  intros Hb. unfold assessResultCaching.
  erewrite caching_skeleton; cycle 1.
  - revert Hb. unfold branch_of.
    destruct (entry_at (World.decisions w) name Guid) as [e|].
    + destruct (bool_decide (DecisionEntry.decision e = DOWNLOAD_FAILED)).
      { intros _. apply reassess_inner. }
      destruct (bool_decide (DecisionEntry.decision e = MATCH)); cbn [andb]; [|done].
      destruct (includes excl (DecisionEntry.infoHash e)); [done|].
      destruct (bool_decide (is_Some _)) eqn:Hc; [done|].
      intros _. unfold mbind at 1. unfold M_bind at 1.
      unfold and_then, existsInTorrentCache.
      cbn [Outcome.value Outcome.world Outcome.trace].
      cbn [World.torrentCache]. rewrite Hc.
      rewrite reassess_inner. cbn [app Outcome.value Outcome.world Outcome.trace].
      reflexivity.
    + intros _. apply reassess_inner.
  - cbn. unfold reassessed_world. cbn.
    rewrite update_entry_set_entry, <- !app_assoc. reflexivity.
Qed.

Lemma caching_flip (e : DecisionEntry.t) :
  entry_at (World.decisions w) name Guid = Some e ->
  DecisionEntry.decision e = MATCH ->
  includes excl (DecisionEntry.infoHash e) = true ->
  assessResultCaching env result searchee excl w =
  Outcome.mk (ResultAssessment.mk INFO_HASH_ALREADY_EXISTS None)
    (cached_world env (DecisionEntry.with_decision INFO_HASH_ALREADY_EXISTS e) name Guid w)
    [EvFlush].
Proof.
  intros He Hm Hx. unfold assessResultCaching.
  erewrite caching_skeleton; cycle 1.
  - rewrite He, Hm, Hx. cbn [bool_decide decide_rel andb].
    rewrite bool_decide_eq_false_2 by done.
    rewrite bool_decide_eq_true_2 by done.
    unfold mbind, M_bind, modify_decisions, mret, M_ret. cbn. reflexivity.
  - cbn. unfold cached_world. cbn.
    erewrite (update_entry_Some (ensure_partition _ _)) by
      (rewrite entry_at_ensure_partition; exact He).
    rewrite update_entry_set_entry. reflexivity.
Qed.

Lemma caching_cached_match (e : DecisionEntry.t) :
  entry_at (World.decisions w) name Guid = Some e ->
  DecisionEntry.decision e = MATCH ->
  includes excl (DecisionEntry.infoHash e) = false ->
  is_Some (World.torrentCache w !! template (DecisionEntry.infoHash e)) ->
  assessResultCaching env result searchee excl w =
  Outcome.mk
    (ResultAssessment.mk MATCH (World.torrentCache w !! template (DecisionEntry.infoHash e)))
    (cached_world env e name Guid w)
    [EvFlush].
Proof.
  intros He Hm Hx Hc. unfold assessResultCaching.
  erewrite caching_skeleton; cycle 1.
  - rewrite He, Hm, Hx.
    rewrite bool_decide_eq_false_2 by done.
    rewrite bool_decide_eq_true_2 by done.
    unfold mbind, M_bind, and_then, existsInTorrentCache, getCachedTorrentFile, mret, M_ret.
    cbn. rewrite bool_decide_eq_true_2 by done. cbn. reflexivity.
  - cbn. unfold cached_world. cbn.
    erewrite (update_entry_Some (ensure_partition _ _)) by
      (rewrite entry_at_ensure_partition; exact He).
    reflexivity.
Qed.

Lemma caching_rejection (e : DecisionEntry.t) :
  entry_at (World.decisions w) name Guid = Some e ->
  DecisionEntry.decision e <> DOWNLOAD_FAILED ->
  DecisionEntry.decision e <> MATCH ->
  assessResultCaching env result searchee excl w =
  Outcome.mk
    (ResultAssessment.mk (DecisionEntry.decision e) None)
    (cached_world env e name Guid w)
    (log_events (DecisionEntry.decision e) true ++ [EvFlush]).
Proof.
  intros He Hf Hm. unfold assessResultCaching.
  erewrite caching_skeleton; cycle 1.
  - rewrite He.
    rewrite !bool_decide_eq_false_2 by done.
    unfold mbind, M_bind, and_then, mret, M_ret.
    cbn. rewrite logReason_eq. cbn. rewrite app_nil_r. reflexivity.
  - cbn. unfold cached_world. cbn.
    erewrite (update_entry_Some (ensure_partition _ _)) by
      (rewrite entry_at_ensure_partition; exact He).
    reflexivity.
Qed.
End Caching.

(** ** The cases of one invocation *)

Lemma caching_viewP env result searchee excl w :
  caching_view env result searchee excl w (assessResultCaching env result searchee excl w).
Proof.
  destruct (reassesses (branch_of w (Searchee.name searchee) (ProwlarrResult.Guid result) excl))
    eqn:Hb.
  - rewrite caching_reassess by done. by constructor.
  - revert Hb. unfold branch_of.
    destruct (entry_at _ _ _) as [e|] eqn:He; [|done].
    case_bool_decide as Hf; [done|].
    case_bool_decide as Hm.
    + destruct (includes excl (DecisionEntry.infoHash e)) eqn:Hx.
      * intros _. erewrite caching_flip by done. by constructor.
      * case_bool_decide as Hc; [|done].
        intros _. erewrite caching_cached_match by done. by constructor.
    + intros _. erewrite caching_rejection by done. by constructor.
Qed.





(** ** What a trace shows *)

Lemma attempts_fetch_app tr1 tr2 :
  attempts_fetch (tr1 ++ tr2) = attempts_fetch tr1 || attempts_fetch tr2.
Proof. apply existsb_app. Qed.

Lemma evaluates_stage_app tr1 tr2 :
  evaluates_stage (tr1 ++ tr2) = evaluates_stage tr1 || evaluates_stage tr2.
Proof. apply existsb_app. Qed.

Lemma bookkeeping_no_fetch a d cached :
  attempts_fetch (write_events a ++ log_events d cached ++ [EvFlush]) = false.
Proof.
  unfold write_events.
  destruct (ResultAssessment.decision a), (ResultAssessment.info a), d; reflexivity.
Qed.

Lemma bookkeeping_no_stage a d cached :
  evaluates_stage (write_events a ++ log_events d cached ++ [EvFlush]) = false.
Proof.
  unfold write_events.
  destruct (ResultAssessment.decision a), (ResultAssessment.info a), d; reflexivity.
Qed.

Lemma log_no_fetch d cached :
  attempts_fetch (log_events d cached ++ [EvFlush]) = false.
Proof. by destruct d. Qed.

Lemma log_no_stage d cached :
  evaluates_stage (log_events d cached ++ [EvFlush]) = false.
Proof. by destruct d. Qed.

(** The fetch stage is reached exactly when the size check passes and the
    candidate has a download link. *)
Lemma stages_fetch env result searchee excl :
  attempts_fetch (map (stage_event result) (evaluated env result searchee excl stage_order))
  = sizeDoesMatch env (ProwlarrResult.Size result) searchee
    && bool_decide (is_Some (truthy (ProwlarrResult.Link result))).
Proof.
  cbn [stage_order evaluated stage_passes].
  destruct (sizeDoesMatch env _ searchee); [|done].
  case_bool_decide as HL; [|done].
  cbn [andb map stage_event attempts_fetch existsb is_fetch orb]. reflexivity.
Qed.

Lemma stages_evaluated env result searchee excl :
  evaluates_stage (map (stage_event result) (evaluated env result searchee excl stage_order))
  = true.
Proof. reflexivity. Qed.

Lemma terminal_rejection d :
  d ∈ [SIZE_MISMATCH; NO_DOWNLOAD_LINK; FILE_TREE_MISMATCH; INFO_HASH_ALREADY_EXISTS] ->
  d <> DOWNLOAD_FAILED /\ d <> MATCH.
Proof. intros Hd. set_unfold in Hd. split; intros ->; intuition congruence. Qed.


(** ** The own properties of the document *)

Lemma own_part_lookup d n :
  own_part d !! n
  = if inherited n then None
    else filter (fun g_e : string * DecisionEntry.t => g_e.1 <> "__proto__"%string) <$> d !! n.
Proof.
  unfold own_part. rewrite lookup_fmap, map_lookup_filter.
  destruct (d !! n) as [p|] eqn:Hp; cbn.
  - destruct (inherited n) eqn:Hn.
    + rewrite option_guard_False; [done|]. cbn. congruence.
    + rewrite option_guard_True; done.
  - by destruct (inherited n).
Qed.

Lemma inherited_proto g : inherited g = false -> g <> "__proto__"%string.
Proof. intros H ->. vm_compute in H. discriminate. Qed.

(** Under own keys the persisted document holds what the document holds. *)
Lemma entry_at_own_part d n g :
  own_keys n g -> entry_at (own_part d) n g = entry_at d n g.
Proof.
  intros [Hn Hg]. unfold entry_at. rewrite own_part_lookup, Hn.
  destruct (d !! n) as [p|]; [cbn|done].
  rewrite map_lookup_filter.
  destruct (p !! g) as [e|]; [cbn|done].
  rewrite option_guard_True; [done|]. cbn. by apply inherited_proto.
Qed.

Lemma entry_at_own_part_gen d n g :
  entry_at (own_part d) n g
  = if inherited n || bool_decide (g = "__proto__"%string) then None else entry_at d n g.
Proof.
  unfold entry_at. rewrite own_part_lookup.
  destruct (inherited n); [done|]. cbn [orb].
  destruct (d !! n) as [p|]; [cbn|by case_bool_decide].
  rewrite map_lookup_filter.
  case_bool_decide as Hg.
  - destruct (p !! g) as [e0|]; [cbn|done]. by rewrite option_guard_False by (cbn; tauto).
  - destruct (p !! g) as [e0|]; [cbn|done]. by rewrite option_guard_True.
Qed.

(** Nothing is persisted under an inherited name. *)
Lemma own_part_inherited d n : inherited n = true -> own_part d !! n = None.
Proof. intros Hn. by rewrite own_part_lookup, Hn. Qed.

(** ** The decision document after an invocation *)

Lemma caching_document env result searchee excl w :
  let name := Searchee.name searchee in
  let Guid := ProwlarrResult.Guid result in
  let o := assessResultCaching env result searchee excl w in
  exists e',
    World.decisions (Outcome.world o)
      = set_entry name Guid e' (ensure_partition name (World.decisions w))
    /\ World.flushed (Outcome.world o) = own_part (World.decisions (Outcome.world o))
    /\ DecisionEntry.lastSeen e' = Env.clock env (pred (World.ticks (Outcome.world o))).
Proof.
  intros name Guid o. subst o.
  view_cases (caching_viewP env result searchee excl w); cbn; eauto.
Qed.


(** The example run of the specification: a fresh MATCH that records the
    info hash and caches the torrent, a second run answered from the
    torrent-file cache without a fetch, and a third run, with the hash now
    excluded, flipped to INFO_HASH_ALREADY_EXISTS without a fetch. *)
Example three_runs :
  let o1 := assessResultCaching movie_env movie_hit movie [] empty_world in
  let o2 := assessResultCaching movie_env movie_hit movie [] (Outcome.world o1) in
  let o3 := assessResultCaching movie_env movie_hit movie ["c0ffee"%string] (Outcome.world o2) in
  Outcome.value o1 = ResultAssessment.mk MATCH (Some movie_meta)
  /\ Outcome.trace o1 = [EvSizeCheck; EvLinkCheck; EvFetch "http://indexer/7"; EvExclusionCheck;
                         EvCompareTrees; EvTorrentWrite "c0ffee"; EvFlush]
  /\ entry_at (World.decisions (Outcome.world o1)) "Movie.2020" "guid-7"
     = Some (DecisionEntry.mk MATCH 1002 1001 (Some "c0ffee"%string))
  /\ Outcome.value o2 = ResultAssessment.mk MATCH (Some movie_meta)
  /\ Outcome.trace o2 = [EvFlush]
  /\ entry_at (World.decisions (Outcome.world o2)) "Movie.2020" "guid-7"
     = Some (DecisionEntry.mk MATCH 1003 1001 (Some "c0ffee"%string))
  /\ Outcome.value o3 = ResultAssessment.mk INFO_HASH_ALREADY_EXISTS None
  /\ Outcome.trace o3 = [EvFlush]
  /\ entry_at (World.decisions (Outcome.world o3)) "Movie.2020" "guid-7"
     = Some (DecisionEntry.mk INFO_HASH_ALREADY_EXISTS 1004 1001 (Some "c0ffee"%string)).
Proof. vm_compute. repeat split; reflexivity. Qed.

(** C10, as stated, fails for a searchee named after an inherited
    property, here [constructor]: the line
    [db.data.decisions[name] ??= {}] creates no partition, as the lookup
    finds the built-in [Object] function.  The invocation returns MATCH and
    flushes, the entry is read back under the name, and the flushed
    document is empty. *)
Lemma inherited_name_gets_no_partition :
  let w := empty_world in
  let o := assessResultCaching online hit constructor_show [] w in
  ensure_partition "constructor" (World.decisions w) = World.decisions w
  /\ ResultAssessment.decision (Outcome.value o) = MATCH
  /\ DecisionEntry.decision <$> entry_at (World.decisions (Outcome.world o)) "constructor" "guid-1"
     = Some MATCH
  /\ last (Outcome.trace o) = Some EvFlush
  /\ World.flushed (Outcome.world o) = ∅.
Proof. vm_compute. repeat split; reflexivity. Qed.

(** C10 (frame), for a searchee name [n] and a guid [g] that are no
    property names inherited from [Object.prototype], on a document with
    nothing placed on [Object.prototype]: the invocation changes the
    decision document at most at key [(n, g)].  The entry at every other
    key is the one stored before, every partition other than [n]'s is the
    same map, [n]'s partition exists afterwards, in the document and in
    what was flushed, what was flushed at every other key is what the
    document held there before, and still nothing is placed on
    [Object.prototype]. *)
Theorem assessResult_frame env result searchee excl w :
  let n := Searchee.name searchee in
  let g := ProwlarrResult.Guid result in
  let o := assessResultCaching env result searchee excl w in
  own_keys n g ->
  unpolluted (World.decisions w) ->
  (forall n' g', (n', g') <> (n, g) ->
     entry_at (World.decisions (Outcome.world o)) n' g' = entry_at (World.decisions w) n' g')
  /\ (forall n', n' <> n -> World.decisions (Outcome.world o) !! n' = World.decisions w !! n')
  /\ is_Some (World.decisions (Outcome.world o) !! n)
  /\ is_Some (World.flushed (Outcome.world o) !! n)
  /\ (forall n' g', (n', g') <> (n, g) ->
        entry_at (World.flushed (Outcome.world o)) n' g'
        = entry_at (own_part (World.decisions w)) n' g')
  /\ unpolluted (World.decisions (Outcome.world o)).
Proof.
  intros n g o [Hn Hg] Hclean.
  destruct (caching_document env result searchee excl w) as (e' & Hd & Hfl & _).
  fold n g o in Hd, Hfl. rewrite Hfl, Hd. split; [|split; [|split; [|split; [|split]]]].
  - intros n' g' Hne.
    rewrite entry_at_set_entry_ne by done. apply entry_at_ensure_partition.
  - intros n' Hne.
    rewrite set_entry_partition_ne by done. by apply ensure_partition_ne.
  - unfold set_entry. rewrite lookup_insert_eq. eauto.
  - rewrite own_part_lookup, Hn. unfold set_entry. rewrite lookup_insert_eq. cbn. eauto.
  - intros n' g' Hne.
    rewrite !entry_at_own_part_gen.
    rewrite entry_at_set_entry_ne by done. by rewrite entry_at_ensure_partition.
  - unfold unpolluted.
    assert ("__proto__"%string <> n) as Hne by (intros <-; discriminate Hn).
    rewrite set_entry_partition_ne by done. by rewrite ensure_partition_ne.
Qed.

Lemma assessResult_frame_witness :
  let o := assessResultCaching online hit show [] shelf in
  entry_at (World.decisions (Outcome.world o)) "Show.S01" "guid-2"
  = Some (DecisionEntry.mk FILE_TREE_MISMATCH 8 6 None)
  /\ entry_at (World.decisions (Outcome.world o)) "Show.S02" "guid-1"
     = Some (DecisionEntry.mk MATCH 9 4 (Some "def"%string))
  /\ is_Some (World.flushed (Outcome.world o) !! "Show.S01"%string).
Proof.
  cbv zeta.
  pose proof (assessResult_frame online hit show [] shelf (conj eq_refl eq_refl) eq_refl)
    as (Hfr & _ & _ & Hfl & _).
  split; [|split; [|exact Hfl]].
  - etransitivity; [apply Hfr; cbn; congruence | vm_compute; reflexivity].
  - etransitivity; [apply Hfr; cbn; congruence | vm_compute; reflexivity].
Defined.

(** C2 (exclusion transition): with a cached MATCH entry whose stored info
    hash is in the caller's exclusion set, the engine answers
    INFO_HASH_ALREADY_EXISTS, stores that decision in the entry, and does
    not call the metafile fetcher. *)
Theorem exclusion_transition env result searchee excl w e h :
  entry_at (World.decisions w) (Searchee.name searchee) (ProwlarrResult.Guid result) = Some e ->
  DecisionEntry.decision e = MATCH ->
  DecisionEntry.infoHash e = Some h ->
  h ∈ excl ->
  let o := assessResultCaching env result searchee excl w in
  ResultAssessment.decision (Outcome.value o) = INFO_HASH_ALREADY_EXISTS
  /\ DecisionEntry.decision <$>
       entry_at (World.decisions (Outcome.world o))
                (Searchee.name searchee) (ProwlarrResult.Guid result)
     = Some INFO_HASH_ALREADY_EXISTS
  /\ attempts_fetch (Outcome.trace o) = false.
Proof.
  intros He Hm Hh Hin o. subst o.
  rewrite (caching_flip env result searchee excl w e He Hm).
  - cbn. by rewrite entry_at_set_entry_eq.
  - rewrite Hh. cbn. by apply bool_decide_eq_true_2.
Qed.

Lemma exclusion_transition_witness :
  let o := assessResultCaching online hit show ["abc"%string] (stored MATCH (Some "abc"%string)) in
  ResultAssessment.decision (Outcome.value o) = INFO_HASH_ALREADY_EXISTS
  /\ DecisionEntry.decision <$>
       entry_at (World.decisions (Outcome.world o)) "Show.S01" "guid-1"
     = Some INFO_HASH_ALREADY_EXISTS
  /\ attempts_fetch (Outcome.trace o) = false.
Proof.
  apply (exclusion_transition online hit show ["abc"%string] (stored MATCH (Some "abc"%string))
           (DecisionEntry.mk MATCH 7 5 (Some "abc"%string)) "abc"%string).
  - vm_compute. reflexivity.
  - reflexivity.
  - reflexivity.
  - apply list_elem_of_here.
Defined.




(** C3, as stated, fails: a cached MATCH whose torrent file is missing is
    not re-assessed when its info hash is in the exclusion set; no stage runs
    and nothing is fetched. *)
Lemma excluded_match_not_reassessed :
  let w := stored MATCH (Some "abc"%string) in
  let o := assessResultCaching online hit show ["abc"%string] w in
  DecisionEntry.decision <$> entry_at (World.decisions w) "Show.S01" "guid-1" = Some MATCH
  /\ World.torrentCache w !! "abc"%string = None
  /\ evaluates_stage (Outcome.trace o) = false
  /\ attempts_fetch (Outcome.trace o) = false.
Proof. vm_compute. repeat split; reflexivity. Qed.

(** C3 (amended): with a cached entry, the full assessment is re-run if
    and only if the cached decision is DOWNLOAD_FAILED, or it is MATCH with
    an info hash that is not in the exclusion set and whose torrent file is
    missing from the cache; the re-run reaches the fetch exactly when the
    size check passes and the candidate has a download link.  A cached
    SIZE_MISMATCH, NO_DOWNLOAD_LINK, FILE_TREE_MISMATCH or
    INFO_HASH_ALREADY_EXISTS is returned as stored, with no fetch and no
    stage evaluated, and only [lastSeen] of the entry changes. *)
Theorem reassessment_policy env result searchee excl w c :
  entry_at (World.decisions w) (Searchee.name searchee) (ProwlarrResult.Guid result) = Some c ->
  let o := assessResultCaching env result searchee excl w in
  let retry :=
    DecisionEntry.decision c = DOWNLOAD_FAILED
    \/ (DecisionEntry.decision c = MATCH
        /\ includes excl (DecisionEntry.infoHash c) = false
        /\ World.torrentCache w !! template (DecisionEntry.infoHash c) = None) in
  (evaluates_stage (Outcome.trace o) = true <-> retry)
  /\ (attempts_fetch (Outcome.trace o) = true <->
      retry /\ sizeDoesMatch env (ProwlarrResult.Size result) searchee = true
            /\ is_Some (truthy (ProwlarrResult.Link result)))
  /\ (DecisionEntry.decision c ∈
        [SIZE_MISMATCH; NO_DOWNLOAD_LINK; FILE_TREE_MISMATCH; INFO_HASH_ALREADY_EXISTS] ->
      Outcome.value o = ResultAssessment.mk (DecisionEntry.decision c) None
      /\ attempts_fetch (Outcome.trace o) = false
      /\ evaluates_stage (Outcome.trace o) = false
      /\ entry_at (World.decisions (Outcome.world o))
                  (Searchee.name searchee) (ProwlarrResult.Guid result)
         = Some (DecisionEntry.with_lastSeen (Env.clock env (World.ticks w)) c)).
Proof.
  intros He0 o retry. subst o.
  view_cases (caching_viewP env result searchee excl w); cbn [Outcome.value Outcome.world Outcome.trace].
  - (* the full assessment runs *)
    assert (Hretry : retry).
    { revert Hb. unfold branch_of, retry. rewrite He0.
      case_bool_decide as Hf; [by left|].
      case_bool_decide as Hm; [|done].
      destruct (includes excl _); [done|].
      case_bool_decide as Hc; [done|]. intros _. right.
      split; [done|]. split; [done|]. by apply eq_None_not_Some. }
    rewrite attempts_fetch_app, evaluates_stage_app, stages_fetch, stages_evaluated.
    rewrite bookkeeping_no_fetch, orb_false_r. cbn [orb].
    split; [done|]. split.
    + rewrite andb_true_iff, bool_decide_eq_true. tauto.
    + intros [Hf Hm]%terminal_rejection. exfalso. revert Hb. unfold branch_of. rewrite He0.
      by rewrite !bool_decide_eq_false_2.
  - (* exclusion flip *)
    rewrite He0 in He. injection He as ->.
    assert (Hno : ~ retry).
    { unfold retry. intros [Hf|(_ & Hx' & _)]; congruence. }
    cbn. split; [split; [done|tauto]|]. split; [split; [done|tauto]|].
    intros [Hf' Hm']%terminal_rejection. congruence.
  - (* cached match *)
    rewrite He0 in He. injection He as ->.
    assert (Hno : ~ retry).
    { unfold retry. intros [Hf|(_ & _ & Hc')]; [congruence|].
      rewrite Hc' in Hc. by destruct Hc. }
    cbn. split; [split; [done|tauto]|]. split; [split; [done|tauto]|].
    intros [Hf' Hm']%terminal_rejection. congruence.
  - (* cached rejection *)
    rewrite He0 in He. injection He as ->.
    assert (Hno : ~ retry).
    { unfold retry. intros [?|(? & _)]; congruence. }
    rewrite log_no_fetch, log_no_stage.
    split; [split; [done|tauto]|]. split; [split; [done|tauto]|].
    intros _. cbn. by rewrite entry_at_set_entry_eq.
Qed.

Lemma reassessment_policy_witness :
  let o := assessResultCaching online hit show [] (stored FILE_TREE_MISMATCH None) in
  Outcome.value o = ResultAssessment.mk FILE_TREE_MISMATCH None
  /\ attempts_fetch (Outcome.trace o) = false
  /\ evaluates_stage (Outcome.trace o) = false
  /\ entry_at (World.decisions (Outcome.world o)) "Show.S01" "guid-1"
     = Some (DecisionEntry.mk FILE_TREE_MISMATCH 1000 5 None).
Proof.
  apply (proj2 (proj2 (reassessment_policy online hit show [] (stored FILE_TREE_MISMATCH None)
                         (DecisionEntry.mk FILE_TREE_MISMATCH 7 5 None) eq_refl))).
  cbn. set_solver.
Defined.

(** ** The info hash of a cache entry *)

(** A MATCH assessment carries the fetched metafile, a rejection none. *)
Lemma staged_assessment_info env result searchee excl :
  let a := staged_assessment env result searchee excl in
  match ResultAssessment.decision a with
  | MATCH => is_Some (ResultAssessment.info a)
  | _ => ResultAssessment.info a = None
  end.
Proof.
  unfold staged_assessment, first_failing.
  cbn [stage_order List.find stage_passes].
  destruct (sizeDoesMatch env _ searchee); cbn; [|done].
  case_bool_decide as HL; cbn; [|done].
  case_bool_decide as HF; cbn; [|done].
  destruct (includes excl _); cbn; [done|].
  destruct HF as [info ->]. cbn.
  destruct (compareFileTrees info searchee); cbn; [eauto|done].
Qed.






(** ** Stage order of the full assessment *)

Section StageOrder.
Variables (env : Env.t) (result : ProwlarrResult.t) (searchee : Searchee.t)
          (excl : list string).

#[local] Abbreviation passes := (stage_passes env result searchee excl).

Lemma evaluated_stops pre st post :
  Forall (fun x => passes x = true) pre -> passes st = false ->
  evaluated env result searchee excl (pre ++ st :: post) = pre ++ [st].
Proof.
  intros Hpre Hst. induction Hpre as [|x pre Hx _ IH]; cbn [app evaluated].
  - by rewrite Hst.
  - by rewrite Hx, IH.
Qed.

Lemma first_failing_stops pre st post :
  Forall (fun x => passes x = true) pre -> passes st = false ->
  first_failing env result searchee excl (pre ++ st :: post) = Some st.
Proof.
  intros Hpre Hst. unfold first_failing.
  induction Hpre as [|x pre Hx _ IH]; cbn [app List.find].
  - by rewrite Hst.
  - by rewrite Hx.
Qed.

Lemma evaluated_all stages :
  Forall (fun x => passes x = true) stages ->
  evaluated env result searchee excl stages = stages
  /\ first_failing env result searchee excl stages = None.
Proof.
  unfold first_failing.
  induction 1 as [|x l Hx _ [IH1 IH2]]; cbn [evaluated List.find]; [done|].
  by rewrite Hx, IH1, IH2.
Qed.
End StageOrder.

(** C5 (stage order): the full assessment evaluates the size check, the
    download-link test, the metafile fetch, the info-hash exclusion check
    and the file-tree comparison in this order.  If a stage fails after all
    earlier ones passed, the decision is that stage's rejection, without a
    metafile, and the stages evaluated are exactly those up to and including
    it; if all five pass the decision is MATCH with the fetched metafile.
    The assessment itself changes nothing in the world. *)
Theorem assessment_stage_order env result searchee excl w :
  let o := assessResultHelper env result searchee excl w in
  let passes := stage_passes env result searchee excl in
  stage_order = [SizeCheck; LinkPresence; MetafileFetch; ExclusionCheck; FileTreeComparison]
  /\ (forall pre st post,
        stage_order = pre ++ st :: post ->
        Forall (fun x => passes x = true) pre ->
        passes st = false ->
        Outcome.value o = ResultAssessment.mk (rejection_of st) None
        /\ Outcome.trace o = map (stage_event result) (pre ++ [st]))
  /\ (Forall (fun x => passes x = true) stage_order ->
      exists info,
        fetched env result = Some info
        /\ Outcome.value o = ResultAssessment.mk MATCH (Some info)
        /\ Outcome.trace o = map (stage_event result) stage_order)
  /\ Outcome.world o = w.
Proof.
  intros o passes. subst o.
  rewrite assessResultHelper_staged. cbn [Outcome.value Outcome.trace Outcome.world].
  split; [done|]. split; [|split; [|done]].
  - intros pre st post Hord Hpre Hst. unfold staged_assessment.
    rewrite Hord.
    rewrite (evaluated_stops env result searchee excl pre st post Hpre Hst).
    by rewrite (first_failing_stops env result searchee excl pre st post Hpre Hst).
  - intros Hall. unfold staged_assessment.
    destruct (evaluated_all env result searchee excl _ Hall) as [-> ->].
    assert (HF : passes MetafileFetch = true).
    { rewrite Forall_forall in Hall. apply Hall. unfold stage_order. set_solver. }
    cbn in HF. apply bool_decide_eq_true in HF as [info Hinfo].
    exists info. by rewrite Hinfo.
Qed.

Lemma assessment_stage_order_witness :
  let o := assessResultHelper online hit show [] empty_world in
  exists info,
    fetched online hit = Some info
    /\ Outcome.value o = ResultAssessment.mk MATCH (Some info)
    /\ Outcome.trace o = map (stage_event hit) stage_order.
Proof.
  apply (proj1 (proj2 (proj2 (assessment_stage_order online hit show [] empty_world)))).
  repeat constructor.
Defined.

(** ** Running the engine twice *)

(** A MATCH assessment carries a metafile whose hash passed the exclusion
    check. *)
Lemma staged_assessment_match env result searchee excl :
  let a := staged_assessment env result searchee excl in
  ResultAssessment.decision a = MATCH ->
  exists m, ResultAssessment.info a = Some m
            /\ includes excl (Some (Metafile.infoHash m)) = false.
Proof.
  unfold staged_assessment, first_failing.
  cbn [stage_order List.find stage_passes].
  destruct (sizeDoesMatch env _ searchee); cbn -[includes]; [|done].
  case_bool_decide as HL; cbn -[includes]; [|done].
  case_bool_decide as HF; cbn -[includes]; [|done].
  destruct HF as [info ->]. cbn -[includes].
  destruct (includes excl _) eqn:Hx; cbn -[includes]; [done|].
  destruct (compareFileTrees info searchee); cbn -[includes]; [|done].
  intros _. eauto.
Qed.

Lemma entry_at_reassessed env a n g w :
  entry_at (World.decisions (reassessed_world env a n g w)) n g
  = Some (DecisionEntry.with_lastSeen (Env.clock env (S (S (World.ticks w))))
            (fresh_entry env a (World.ticks w))).
Proof. unfold reassessed_world. cbn. apply entry_at_set_entry_eq. Qed.

Lemma entry_at_cached env e n g w :
  entry_at (World.decisions (cached_world env e n g w)) n g
  = Some (DecisionEntry.with_lastSeen (Env.clock env (World.ticks w)) e).
Proof. unfold cached_world. cbn. apply entry_at_set_entry_eq. Qed.

(** C6 (idempotence): a second invocation right after the first, with the
    same candidate, searchee, exclusion set, configuration and fetcher,
    returns the same decision; unless that decision is DOWNLOAD_FAILED the
    second invocation does not call the metafile fetcher (after a MATCH the
    bytes are in the torrent-file cache, written or found by the first
    invocation). *)
Theorem assessResult_idempotent env result searchee excl w :
  let o1 := assessResultCaching env result searchee excl w in
  let o2 := assessResultCaching env result searchee excl (Outcome.world o1) in
  ResultAssessment.decision (Outcome.value o2) = ResultAssessment.decision (Outcome.value o1)
  /\ (ResultAssessment.decision (Outcome.value o1) <> DOWNLOAD_FAILED ->
      attempts_fetch (Outcome.trace o2) = false)
  /\ (ResultAssessment.decision (Outcome.value o1) = MATCH ->
      exists e m,
        entry_at (World.decisions (Outcome.world o1))
                 (Searchee.name searchee) (ProwlarrResult.Guid result) = Some e
        /\ World.torrentCache (Outcome.world o1) !! template (DecisionEntry.infoHash e) = Some m
        /\ ResultAssessment.info (Outcome.value o2) = Some m).
Proof.
  intros o1 o2. subst o1 o2.
  view_cases (caching_viewP env result searchee excl w); cbn [Outcome.value Outcome.world].
  - (* the first invocation ran the full assessment *)
    set (w' := reassessed_world _ _ _ _ _).
    pose proof (entry_at_reassessed env a (Searchee.name searchee)
                  (ProwlarrResult.Guid result) w) as He'.
    fold w' in He'.
    destruct (ResultAssessment.decision a) eqn:Hd.
    + (* MATCH: written to the torrent cache, found there *)
      destruct (staged_assessment_match env result searchee excl Hd) as (m & Hm & Hx).
      fold a in Hm.
      assert (Hh : DecisionEntry.infoHash
                     (DecisionEntry.with_lastSeen (Env.clock env (S (S (World.ticks w))))
                        (fresh_entry env a (World.ticks w))) = Some (Metafile.infoHash m)).
      { unfold fresh_entry. cbn. by rewrite Hd, Hm. }
      assert (Hc : World.torrentCache w' !! Metafile.infoHash m = Some m).
      { unfold w', reassessed_world, cache_with. cbn. rewrite Hd, Hm.
        apply lookup_insert_eq. }
      erewrite caching_cached_match; [| exact He' | by cbn | by rewrite Hh | rewrite Hh; cbn; eauto].
      cbn [Outcome.value Outcome.trace ResultAssessment.decision ResultAssessment.info].
      rewrite Hh. cbn [template default].
      split; [done|]. split; [done|]. intros _.
      eexists _, m. split; [exact He'|]. rewrite Hh. by split.
    + erewrite caching_rejection; [| exact He' | cbn; congruence | cbn; congruence].
      cbn. rewrite Hd. done.
    + erewrite caching_rejection; [| exact He' | cbn; congruence | cbn; congruence].
      cbn. rewrite Hd. done.
    + (* DOWNLOAD_FAILED: retried, with the same outcome *)
      rewrite caching_reassess.
      * cbn. fold a. rewrite Hd. done.
      * unfold branch_of. rewrite He'. cbn. by rewrite Hd.
    + erewrite caching_rejection; [| exact He' | cbn; congruence | cbn; congruence].
      cbn. rewrite Hd. done.
    + erewrite caching_rejection; [| exact He' | cbn; congruence | cbn; congruence].
      cbn. rewrite Hd. done.
  - (* exclusion flip, then a cached rejection *)
    erewrite caching_rejection; [| apply entry_at_cached | done | done].
    done.
  - (* cached match both times *)
    destruct Hc as [m Hc].
    erewrite caching_cached_match;
      [| apply entry_at_cached | done | done
       | unfold cached_world;
         cbn [World.torrentCache DecisionEntry.with_lastSeen DecisionEntry.infoHash];
         rewrite Hc; eauto].
    rewrite entry_at_cached.
    unfold cached_world;
      cbn [Outcome.value Outcome.trace ResultAssessment.decision ResultAssessment.info
           World.torrentCache DecisionEntry.with_lastSeen DecisionEntry.infoHash].
    rewrite Hc.
    split; [done|]. split; [done|]. intros _. eauto.
  - (* cached rejection both times *)
    erewrite caching_rejection; [| apply entry_at_cached | done | done].
    cbn [Outcome.value Outcome.trace ResultAssessment.decision DecisionEntry.with_lastSeen
         DecisionEntry.decision].
    rewrite log_no_fetch. done.
Qed.

(** ** Sequences of invocations *)

Lemma invoke_already_exists i w n g e :
  entry_at (World.decisions w) n g = Some e ->
  DecisionEntry.decision e = INFO_HASH_ALREADY_EXISTS ->
  (exists e', entry_at (World.decisions (Outcome.world (invoke i w))) n g = Some e'
              /\ DecisionEntry.decision e' = INFO_HASH_ALREADY_EXISTS)
  /\ (targets i n g ->
      Outcome.value (invoke i w) = ResultAssessment.mk INFO_HASH_ALREADY_EXISTS None).
Proof.
  intros He Hd. unfold invoke.
  destruct (decide ((n, g) = (Searchee.name (Invocation.searchee i),
                              ProwlarrResult.Guid (Invocation.result i)))) as [[= -> ->]|Hne].
  - erewrite caching_rejection; [| exact He | congruence | congruence].
    cbn [Outcome.value Outcome.world]. rewrite entry_at_cached, Hd. split; [eauto|done].
  - split.
    + destruct (caching_document (Invocation.env i) (Invocation.result i)
                  (Invocation.searchee i) (Invocation.excl i) w) as (e' & -> & _).
      rewrite entry_at_set_entry_ne, entry_at_ensure_partition by done. eauto.
    + intros [<- <-]. done.
Qed.

(** C9 (finality of INFO_HASH_ALREADY_EXISTS): once the entry of a pair has
    decision INFO_HASH_ALREADY_EXISTS, then through any run of further
    invocations (for any pairs, exclusion sets, configurations and fetcher
    answers) every invocation for that pair returns
    INFO_HASH_ALREADY_EXISTS without a metafile, and the entry still has
    that decision at the end: it never returns to MATCH. *)
Theorem info_hash_already_exists_is_final n g e invs w :
  entry_at (World.decisions w) n g = Some e ->
  DecisionEntry.decision e = INFO_HASH_ALREADY_EXISTS ->
  (forall i d, (i, d) ∈ fst (run_all invs w) -> targets i n g -> d = INFO_HASH_ALREADY_EXISTS)
  /\ DecisionEntry.decision <$> entry_at (World.decisions (snd (run_all invs w))) n g
     = Some INFO_HASH_ALREADY_EXISTS.
Proof.
  revert w e. induction invs as [|i rest IH]; intros w e He Hd.
  - cbn. rewrite He. cbn. rewrite Hd. split; [|done].
    intros i d Hin. by apply not_elem_of_nil in Hin.
  - cbn [run_all fst snd].
    destruct (invoke_already_exists i w n g e He Hd) as [(e' & He' & Hd') Hret].
    destruct (IH _ _ He' Hd') as [IH1 IH2].
    split; [|exact IH2].
    intros j d Hin Ht. apply elem_of_cons in Hin as [Heq|Hin].
    + apply pair_equal_spec in Heq as [-> ->]. by rewrite (Hret Ht).
    + by eapply IH1.
Qed.

Lemma info_hash_already_exists_is_final_witness :
  DecisionEntry.decision <$>
    entry_at (World.decisions
                (snd (run_all [Invocation.mk online hit show [];
                               Invocation.mk offline hit show ["abc"%string]]
                              (stored INFO_HASH_ALREADY_EXISTS (Some "abc"%string)))))
             "Show.S01" "guid-1"
  = Some INFO_HASH_ALREADY_EXISTS.
Proof.
  apply (proj2 (info_hash_already_exists_is_final "Show.S01" "guid-1"
                  (DecisionEntry.mk INFO_HASH_ALREADY_EXISTS 7 5 (Some "abc"%string))
                  [Invocation.mk online hit show [];
                   Invocation.mk offline hit show ["abc"%string]]
                  (stored INFO_HASH_ALREADY_EXISTS (Some "abc"%string))
                  eq_refl eq_refl)).
Defined.

(** ** The file-tree comparator *)

Lemma cmp_true a b : cmp a b = true <-> File.path b = File.path a /\ File.length b = File.length a.
Proof.
  unfold cmp. rewrite andb_true_iff, !bool_decide_eq_true. tauto.
Qed.

Lemma compareFileTrees_spec candidate searchee :
  compareFileTrees candidate searchee = true <->
  forall a, a ∈ Metafile.files candidate ->
    exists b, b ∈ Searchee.files searchee
              /\ File.path b = File.path a /\ File.length b = File.length a.
Proof.
  unfold compareFileTrees. rewrite forallb_forall. split.
  - intros H a Ha%list_elem_of_In. apply H, existsb_exists in Ha as (b & Hb & Hc).
    exists b. split; [by apply list_elem_of_In | by apply cmp_true].
  - intros H a Ha%list_elem_of_In. apply H in Ha as (b & Hb & Hc).
    apply existsb_exists. exists b. split; [by apply list_elem_of_In | by apply cmp_true].
Qed.

(** C8 (comparator subset law): the comparator answers true exactly when
    every candidate file has a searchee file with the same path string and
    the same length; a candidate with a file that has no such counterpart
    is a mismatch, further searchee files never turn a match into a
    mismatch, and two files correspond only if they are equal field by
    field (no normalisation of the path). *)
Theorem compareFileTrees_subset candidate searchee :
  (compareFileTrees candidate searchee = true <->
   forall a, a ∈ Metafile.files candidate ->
     exists b, b ∈ Searchee.files searchee
               /\ File.path b = File.path a /\ File.length b = File.length a)
  /\ (forall extra,
        (forall b, b ∈ Searchee.files searchee ->
           ~ (File.path b = File.path extra /\ File.length b = File.length extra)) ->
        compareFileTrees
          (Metafile.mk (Metafile.infoHash candidate) (extra :: Metafile.files candidate))
          searchee = false)
  /\ (forall more,
        compareFileTrees candidate searchee = true ->
        compareFileTrees candidate
          (Searchee.mk (Searchee.name searchee) (Searchee.files searchee ++ more)
                       (Searchee.length searchee)) = true)
  /\ (forall a b, cmp a b = true <-> a = b).
Proof.
  split; [apply compareFileTrees_spec|]. split; [|split].
  - intros extra Hnone. apply not_true_is_false. intros H.
    pose proof (proj1 (compareFileTrees_spec _ _) H) as H'. cbn in H'.
    rename H' into Hall.
    destruct (Hall extra) as (b & Hb & Hc); [apply list_elem_of_here|].
    by apply (Hnone b).
  - intros more H. apply compareFileTrees_spec. cbn.
    intros a Ha. destruct (proj1 (compareFileTrees_spec _ _) H a Ha) as (b & Hb & Hc).
    exists b. split; [|done]. apply elem_of_app. by left.
  - intros [pa la] [pb lb]. rewrite cmp_true. cbn. split.
    + by intros [-> ->].
    + by intros [= -> ->].
Qed.

Lemma compareFileTrees_subset_witness :
  compareFileTrees show_meta
    (Searchee.mk (Searchee.name show) (Searchee.files show ++ [File.mk "extras/nfo.txt" 1])
                 (Searchee.length show)) = true.
Proof.
  apply (proj1 (proj2 (proj2 (compareFileTrees_subset show_meta show)))).
  vm_compute. reflexivity.
Defined.

(** ** The size filter on doubles *)

Lemma SFcompare_antisym a b :
  SFcompare b a = option_map CompOpp (SFcompare a b).
Proof.
  destruct a as [[]|[]| |[] m1 e1], b as [[]|[]| |[] m2 e2]; try reflexivity; cbn;
    rewrite (Z.compare_antisym e1 e2); destruct (e1 ?= e2)%Z; cbn; try reflexivity;
    rewrite (Pos.compare_cont_antisym m1 m2); cbn;
    destruct (Pos.compare_cont Eq m1 m2); reflexivity.
Qed.

Lemma SFcompare_refl a b c :
  SFcompare a b = Some c -> SFcompare a a = Some Eq.
Proof.
  destruct a as [[]|[]| |[] m1 e1]; try reflexivity;
    try (destruct b; discriminate); intros _; cbn;
    rewrite Z.compare_refl, Pos.compare_cont_refl; reflexivity.
Qed.

(** A double that compares with anything is not NaN, hence [<=] itself. *)
Lemma leb_refl_of_leb x y : (x <=? y)%float = true -> (x <=? x)%float = true.
Proof.
  rewrite !leb_spec. unfold SFleb.
  destruct (SFcompare (Prim2SF x) (Prim2SF y)) as [c|] eqn:Hc; [|done].
  by rewrite (SFcompare_refl _ _ _ Hc).
Qed.

Lemma leb_refl_of_leb_r x y : (x <=? y)%float = true -> (y <=? y)%float = true.
Proof.
  rewrite !leb_spec. unfold SFleb.
  destruct (SFcompare (Prim2SF x) (Prim2SF y)) as [c|] eqn:Hc; [|done].
  pose proof (SFcompare_antisym (Prim2SF x) (Prim2SF y)) as Ha. rewrite Hc in Ha.
  by rewrite (SFcompare_refl _ _ _ Ha).
Qed.

Lemma ltb_not_leb x y : (x <? y)%float = true -> (y <=? x)%float = false.
Proof.
  rewrite ltb_spec, leb_spec. unfold SFltb, SFleb.
  rewrite (SFcompare_antisym (Prim2SF x) (Prim2SF y)).
  by destruct (SFcompare (Prim2SF x) (Prim2SF y)) as [[]|].
Qed.

(** C7, as stated, fails on doubles, whichever way the bound L × (1 ∓ t) is
    read.  (1) With the exact values of the doubles: tolerance 0.3, length
    10, size 7 is accepted although 7 lies below 10 × (1 − t), since t × 10
    rounds to 3.  (2) With the decimal tolerance 7/10: length 90, size 27 is
    exactly 90 × (1 − 7/10) and is rejected, the computed lower bound being
    27.000000000000007.  (3) With L × (1 + t) computed in doubles: tolerance
    0.4, length 45, size 63 is accepted although 45 × (1 + 0.4) is
    62.99999999999999. *)
Lemma size_bounds_are_rounded :
  (sizeDoesMatch (size_env 0x1.3333333333333p-2) 7 (sized 10) = true
   /\ (exact 7 < exact 10 * (1 - exact 0x1.3333333333333p-2))%Q)
  /\ (sizeDoesMatch (size_env 0x1.6666666666666p-1) 27 (sized 90) = false
      /\ (90 * (1 - (7 # 10)) <= 27)%Q /\ (27 <= 90 * (1 + (7 # 10)))%Q)
  /\ (sizeDoesMatch (size_env 0x1.999999999999ap-2) 63 (sized 45) = true
      /\ (63 <=? 45 * (1 + 0x1.999999999999ap-2))%float = false).
Proof.
  repeat split; try (vm_compute; reflexivity); vm_compute; discriminate.
Qed.

(** C7 (amended): the filter computes lowerBound = L − t × L and
    upperBound = L + t × L in double arithmetic and accepts a size s if and
    only if lowerBound ≤ s ≤ upperBound.  Both ends are inclusive: whenever
    lowerBound ≤ upperBound (so neither is NaN) the two computed bounds are
    themselves accepted, and a size strictly below lowerBound or strictly
    above upperBound is rejected. *)
Theorem sizeDoesMatch_inclusive env resultSize searchee :
  let length := Searchee.length searchee in
  let lowerBound := (length - Env.fuzzySizeThreshold env * length)%float in
  let upperBound := (length + Env.fuzzySizeThreshold env * length)%float in
  (sizeDoesMatch env resultSize searchee = true <->
   (lowerBound <=? resultSize)%float = true /\ (resultSize <=? upperBound)%float = true)
  /\ ((lowerBound <=? upperBound)%float = true ->
      sizeDoesMatch env lowerBound searchee = true
      /\ sizeDoesMatch env upperBound searchee = true)
  /\ ((resultSize <? lowerBound)%float = true \/ (upperBound <? resultSize)%float = true ->
      sizeDoesMatch env resultSize searchee = false).
Proof.
  intros length lowerBound upperBound. unfold sizeDoesMatch.
  fold length lowerBound upperBound.
  split; [apply andb_true_iff|]. split.
  - intros Hle.
    rewrite (leb_refl_of_leb _ _ Hle), (leb_refl_of_leb_r _ _ Hle), Hle. done.
  - intros [Hlt|Hlt]; apply ltb_not_leb in Hlt; rewrite Hlt.
    + done.
    + apply andb_false_r.
Qed.

Lemma sizeDoesMatch_inclusive_witness :
  sizeDoesMatch (size_env threshold) 980000000 (sized 1000000000) = true
  /\ sizeDoesMatch (size_env threshold) 1020000000 (sized 1000000000) = true.
Proof.
  exact (proj1 (proj2 (sizeDoesMatch_inclusive (size_env threshold) 0 (sized 1000000000)))
           eq_refl).
Defined.

(** * Further properties of the engine *)

Lemma count_app p tr1 tr2 : count p (tr1 ++ tr2) = (count p tr1 + count p tr2)%nat.
Proof. unfold count. by rewrite List.filter_app, length_app. Qed.

(** The stages of the full assessment are neither flushes, torrent writes
    nor log lines. *)
Lemma count_stages p result stages :
  (forall st, p (stage_event result st) = false) ->
  count p (map (stage_event result) stages) = 0%nat.
Proof.
  intros Hp. unfold count. induction stages as [|st l IH]; [done|].
  cbn [map List.filter]. by rewrite Hp.
Qed.

Lemma stage_event_not_flush result st : is_flush (stage_event result st) = false.
Proof. by destruct st. Qed.

Lemma stage_event_not_write result st : is_torrent_write (stage_event result st) = false.
Proof. by destruct st. Qed.

Lemma stage_event_not_log result st : is_log (stage_event result st) = false.
Proof. by destruct st. Qed.

(** X1: for a searchee name and a guid that are no property names
    inherited from [Object.prototype], on a document with nothing placed on
    [Object.prototype], after every invocation the entry of the pair exists
    and records the decision that was just returned, in the document and in
    what was flushed. *)
Theorem returned_decision_is_recorded env result searchee excl w :
  let n := Searchee.name searchee in
  let g := ProwlarrResult.Guid result in
  let o := assessResultCaching env result searchee excl w in
  own_keys n g ->
  unpolluted (World.decisions w) ->
  DecisionEntry.decision <$> entry_at (World.decisions (Outcome.world o)) n g
  = Some (ResultAssessment.decision (Outcome.value o))
  /\ DecisionEntry.decision <$> entry_at (World.flushed (Outcome.world o)) n g
     = Some (ResultAssessment.decision (Outcome.value o)).
Proof.
  intros n g o Hown _.
  assert (DecisionEntry.decision <$> entry_at (World.decisions (Outcome.world o)) n g
          = Some (ResultAssessment.decision (Outcome.value o))) as Hrec.
  { subst n g o.
    view_cases (caching_viewP env result searchee excl w);
      cbn [Outcome.value Outcome.world reassessed_world cached_world World.decisions];
      rewrite entry_at_set_entry_eq; cbn; [done| done | by rewrite Hm | done]. }
  split; [done|].
  destruct (caching_document env result searchee excl w) as (e' & _ & Hfl & _).
  fold o in Hfl. by rewrite Hfl, entry_at_own_part.
Qed.

Lemma returned_decision_is_recorded_witness :
  let o := assessResultCaching online hit show [] shelf in
  ResultAssessment.decision (Outcome.value o) = SIZE_MISMATCH
  /\ DecisionEntry.decision <$> entry_at (World.flushed (Outcome.world o)) "Show.S01" "guid-1"
     = Some SIZE_MISMATCH.
Proof.
  cbv zeta.
  pose proof (returned_decision_is_recorded online hit show [] shelf
                (conj eq_refl eq_refl) eq_refl) as [_ Hfl].
  assert (ResultAssessment.decision
            (Outcome.value (assessResultCaching online hit show [] shelf)) = SIZE_MISMATCH) as Hv
    by (vm_compute; reflexivity).
  split; [exact Hv|]. rewrite <- Hv. exact Hfl.
Defined.

(** X2: every invocation flushes the document exactly once; it writes one
    torrent file when the full assessment ran and ended in MATCH, and none
    otherwise, and a file written is that of the returned metafile. *)
Theorem one_flush_one_write env result searchee excl w :
  let o := assessResultCaching env result searchee excl w in
  count is_flush (Outcome.trace o) = 1%nat
  /\ count is_torrent_write (Outcome.trace o)
     = (if evaluates_stage (Outcome.trace o)
           && bool_decide (ResultAssessment.decision (Outcome.value o) = MATCH)
        then 1 else 0)%nat
  /\ (forall h, EvTorrentWrite h ∈ Outcome.trace o ->
        Metafile.infoHash <$> ResultAssessment.info (Outcome.value o) = Some h).
Proof.
  intros o. subst o.
  view_cases (caching_viewP env result searchee excl w);
    cbn [Outcome.value Outcome.trace].
  - rewrite !count_app, evaluates_stage_app, stages_evaluated.
    rewrite (count_stages _ _ _ (stage_event_not_flush result)).
    rewrite (count_stages _ _ _ (stage_event_not_write result)).
    cbn [orb andb].
    pose proof (staged_assessment_info env result searchee excl) as Hinfo.
    cbn zeta in Hinfo. fold a in Hinfo.
    split; [|split].
    + unfold write_events.
      by destruct (ResultAssessment.decision a), (ResultAssessment.info a).
    + unfold write_events.
      destruct (ResultAssessment.decision a), (ResultAssessment.info a);
        try done; by destruct Hinfo.
    + intros h Hin. rewrite !elem_of_app in Hin.
      destruct Hin as [Hin|[Hin|[Hin|Hin]]].
      * apply list_elem_of_fmap in Hin as (st & Hst & _). by destruct st.
      * unfold write_events in Hin.
        destruct (ResultAssessment.decision a), (ResultAssessment.info a);
          try (by apply not_elem_of_nil in Hin).
        apply list_elem_of_singleton in Hin. injection Hin as ->. done.
      * by destruct (ResultAssessment.decision a);
          [apply not_elem_of_nil in Hin | apply list_elem_of_singleton in Hin ..].
      * by apply list_elem_of_singleton in Hin.
  - split; [done|]. split; [done|]. intros h Hin. by apply list_elem_of_singleton in Hin.
  - split; [done|]. split; [done|]. intros h Hin. by apply list_elem_of_singleton in Hin.
  - rewrite count_app, log_no_stage. split; [|split].
    + by destruct (DecisionEntry.decision e).
    + by destruct (DecisionEntry.decision e).
    + intros h Hin. apply elem_of_app in Hin as [Hin|Hin].
      * by destruct (DecisionEntry.decision e);
          [apply not_elem_of_nil in Hin | apply list_elem_of_singleton in Hin ..].
      * by apply list_elem_of_singleton in Hin.
Qed.

(** The torrent-file cache after an invocation: the old one, with the
    returned metafile added under its info hash when the full assessment
    ended in MATCH. *)
Lemma caching_torrentCache env result searchee excl w :
  let o := assessResultCaching env result searchee excl w in
  World.torrentCache (Outcome.world o) = World.torrentCache w
  \/ (exists m, evaluates_stage (Outcome.trace o) = true
        /\ Outcome.value o = ResultAssessment.mk MATCH (Some m)
        /\ World.torrentCache (Outcome.world o)
           = <[Metafile.infoHash m := m]> (World.torrentCache w)).
Proof.
  intros o. subst o.
  view_cases (caching_viewP env result searchee excl w);
    cbn [Outcome.value Outcome.world Outcome.trace reassessed_world cached_world
         World.torrentCache]; try by left.
  rewrite evaluates_stage_app, stages_evaluated. cbn [orb].
  unfold cache_with. clearbody a. destruct a as [d i]. cbn.
  destruct d, i; try (by left). right. by eexists.
Qed.

(** X3: the engine never deletes anything.  An entry stored under any key
    is still stored after an invocation, and so is every partition; a
    cached torrent file is still cached, and the only file that can be new
    or overwritten is the returned metafile under its own info hash. *)
Theorem nothing_is_deleted env result searchee excl w :
  let o := assessResultCaching env result searchee excl w in
  (forall n g, is_Some (entry_at (World.decisions w) n g) ->
               is_Some (entry_at (World.decisions (Outcome.world o)) n g))
  /\ (forall n, is_Some (World.decisions w !! n) ->
                is_Some (World.decisions (Outcome.world o) !! n))
  /\ (forall h, is_Some (World.torrentCache w !! h) ->
                is_Some (World.torrentCache (Outcome.world o) !! h))
  /\ (forall h m, World.torrentCache (Outcome.world o) !! h = Some m ->
        World.torrentCache w !! h = Some m
        \/ (ResultAssessment.decision (Outcome.value o) = MATCH
            /\ ResultAssessment.info (Outcome.value o) = Some m
            /\ Metafile.infoHash m = h)).
Proof.
  intros o.
  destruct (caching_document env result searchee excl w) as (e' & Hd & _).
  pose proof (caching_torrentCache env result searchee excl w) as Htc.
  cbn zeta in Htc. fold o in Hd, Htc.
  split; [|split; [|split]].
  - intros n g Hsome. rewrite Hd.
    destruct (decide ((n, g) = (Searchee.name searchee, ProwlarrResult.Guid result)))
      as [[= -> ->]|Hne].
    + rewrite entry_at_set_entry_eq. eauto.
    + by rewrite entry_at_set_entry_ne, entry_at_ensure_partition.
  - intros n Hsome. rewrite Hd.
    destruct (decide (n = Searchee.name searchee)) as [->|Hne].
    + unfold set_entry. rewrite lookup_insert_eq. eauto.
    + by rewrite set_entry_partition_ne, ensure_partition_ne.
  - intros h Hsome. destruct Htc as [->|(m & _ & _ & ->)]; [done|].
    destruct (decide (Metafile.infoHash m = h)) as [->|Hne].
    + rewrite lookup_insert_eq. eauto.
    + by rewrite lookup_insert_ne.
  - intros h m Hm. destruct Htc as [Heq|(m' & _ & Hv & Heq)]; rewrite Heq in Hm; [by left|].
    destruct (decide (Metafile.infoHash m' = h)) as [<-|Hne].
    + rewrite lookup_insert_eq in Hm. injection Hm as <-. right. by rewrite Hv.
    + rewrite lookup_insert_ne in Hm by done. by left.
Qed.

Lemma nothing_is_deleted_witness :
  is_Some (World.torrentCache
             (Outcome.world (assessResultCaching movie_env movie_hit movie []
                (World.mk ∅ ∅ {[ "abc"%string := show_meta ]} 0))) !! "abc"%string).
Proof.
  apply (proj1 (proj2 (proj2 (nothing_is_deleted movie_env movie_hit movie []
           (World.mk ∅ ∅ {[ "abc"%string := show_meta ]} 0))))).
  vm_compute. eauto.
Defined.

(** X4: if every cached torrent file is stored under its own info hash, it
    is still so after an invocation, and a returned MATCH then carries a
    metafile whose info hash is the one the entry names. *)
Theorem cache_keyed_preserved env result searchee excl w :
  cache_keyed (World.torrentCache w) ->
  let o := assessResultCaching env result searchee excl w in
  cache_keyed (World.torrentCache (Outcome.world o))
  /\ (ResultAssessment.decision (Outcome.value o) = MATCH ->
      exists e' m,
        entry_at (World.decisions (Outcome.world o))
                 (Searchee.name searchee) (ProwlarrResult.Guid result) = Some e'
        /\ ResultAssessment.info (Outcome.value o) = Some m
        /\ template (DecisionEntry.infoHash e') = Metafile.infoHash m).
Proof.
  intros Hk o. split.
  - pose proof (caching_torrentCache env result searchee excl w) as Htc.
    cbn zeta in Htc. fold o in Htc.
    destruct Htc as [->|(m & _ & _ & ->)]; [done|].
    intros h m' Hm'.
    destruct (decide (Metafile.infoHash m = h)) as [<-|Hne].
    + rewrite lookup_insert_eq in Hm'. by injection Hm' as <-.
    + rewrite lookup_insert_ne in Hm' by done. by apply Hk.
  - subst o.
    view_cases (caching_viewP env result searchee excl w);
      cbn [Outcome.value Outcome.world reassessed_world cached_world World.decisions
           ResultAssessment.decision ResultAssessment.info];
      rewrite entry_at_set_entry_eq; try done.
    + intros Hd.
      destruct (staged_assessment_match env result searchee excl Hd) as (m & Hm & _).
      fold a in Hm. eexists _, m. split; [done|]. split; [done|].
      unfold fresh_entry. cbn. by rewrite Hd, Hm.
    + intros _. destruct Hc as [m Hc]. eexists _, m. split; [done|]. split; [done|].
      cbn. symmetry. by apply Hk.
Qed.

Lemma empty_cache_keyed : cache_keyed (World.torrentCache empty_world).
Proof. intros h m Hm. cbn in Hm. by rewrite lookup_empty in Hm. Qed.

Lemma cache_keyed_preserved_witness :
  cache_keyed (World.torrentCache
    (Outcome.world (assessResultCaching movie_env movie_hit movie [] empty_world))).
Proof.
  apply (proj1 (cache_keyed_preserved movie_env movie_hit movie [] empty_world
                  empty_cache_keyed)).
Defined.

(** What an invocation leaves in the torrent-file cache: every file that
    was there, and the file of the pair's entry if that entry is a MATCH. *)
Lemma nothing_is_deleted_aux env result searchee excl w :
  let o := assessResultCaching env result searchee excl w in
  (forall h, is_Some (World.torrentCache w !! h) ->
             is_Some (World.torrentCache (Outcome.world o) !! h))
  /\ (forall e', entry_at (World.decisions (Outcome.world o))
                          (Searchee.name searchee) (ProwlarrResult.Guid result) = Some e' ->
        DecisionEntry.decision e' = MATCH ->
        is_Some (World.torrentCache (Outcome.world o) !! template (DecisionEntry.infoHash e'))).
Proof.
  intros o. split.
  - pose proof (caching_torrentCache env result searchee excl w) as Htc.
    cbn zeta in Htc. fold o in Htc.
    intros h Hsome. destruct Htc as [->|(m & _ & _ & ->)]; [done|].
    destruct (decide (Metafile.infoHash m = h)) as [->|Hne].
    + rewrite lookup_insert_eq. eauto.
    + by rewrite lookup_insert_ne.
  - subst o.
    view_cases (caching_viewP env result searchee excl w);
      cbn [Outcome.world reassessed_world cached_world World.decisions World.torrentCache];
      rewrite entry_at_set_entry_eq; intros e' [= <-]; cbn.
    + intros Hd.
      destruct (staged_assessment_match env result searchee excl Hd) as (m & Hm & _).
      fold a in Hm. unfold cache_with. rewrite Hd, Hm. cbn.
      rewrite lookup_insert_eq. eauto.
    + done.
    + done.
    + done.
Qed.

(** X5: if every MATCH entry has its torrent file in the cache, this is
    still so after an invocation; and then an invocation for a pair whose
    cached decision is MATCH never calls the metafile fetcher: it answers
    MATCH from the cache or flips to INFO_HASH_ALREADY_EXISTS. *)
Theorem matches_cached_preserved env result searchee excl w :
  matches_cached w ->
  let n := Searchee.name searchee in
  let g := ProwlarrResult.Guid result in
  let o := assessResultCaching env result searchee excl w in
  matches_cached (Outcome.world o)
  /\ (forall e, entry_at (World.decisions w) n g = Some e ->
        DecisionEntry.decision e = MATCH ->
        attempts_fetch (Outcome.trace o) = false
        /\ (ResultAssessment.decision (Outcome.value o) = MATCH
            \/ ResultAssessment.decision (Outcome.value o) = INFO_HASH_ALREADY_EXISTS)).
Proof.
  intros Hinv n g o. split.
  - intros n' g' e' He' Hd'.
    destruct (nothing_is_deleted_aux env result searchee excl w) as [Hgrow Hown].
    fold o in Hgrow, Hown.
    destruct (decide ((n', g') = (n, g))) as [[= -> ->]|Hne].
    + by apply Hown.
    + apply Hgrow. apply (Hinv n' g'); [|done].
      destruct (caching_document env result searchee excl w) as (e2 & Hdoc & _).
      fold n g o in Hdoc.
      by rewrite Hdoc, entry_at_set_entry_ne, entry_at_ensure_partition in He'.
  - intros e0 He0 Hd0. subst n g o.
    specialize (Hinv _ _ _ He0 Hd0).
    view_cases (caching_viewP env result searchee excl w);
      cbn [Outcome.value Outcome.trace ResultAssessment.decision].
    + exfalso. revert Hb. unfold branch_of. rewrite He0, Hd0. cbn.
      destruct (includes excl _); [done|].
      rewrite bool_decide_eq_false_2 by done.
      rewrite (bool_decide_eq_true_2 (MATCH = MATCH)) by done.
      by rewrite bool_decide_eq_true_2.
    + split; [done|by right].
    + split; [done|by left].
    + congruence.
Qed.

Lemma empty_matches_cached : matches_cached empty_world.
Proof. intros n g e He. unfold entry_at in He. cbn in He. by rewrite lookup_empty in He. Qed.

Lemma matches_cached_preserved_witness :
  matches_cached
    (Outcome.world (assessResultCaching movie_env movie_hit movie [] empty_world)).
Proof.
  apply (proj1 (matches_cached_preserved movie_env movie_hit movie [] empty_world
                  empty_matches_cached)).
Defined.

(** X6: with a clock that never runs backwards, and a stored entry (if
    any) first seen no later than now, the entry has [firstSeen] no later
    than [lastSeen] after an invocation.  The entry that
    [assessAndSaveResults] writes on its own is the other way round, since
    it reads [lastSeen] from the clock before [firstSeen]. *)
Theorem firstSeen_before_lastSeen env result searchee excl w :
  monotone (Env.clock env) ->
  let n := Searchee.name searchee in
  let g := ProwlarrResult.Guid result in
  (forall e, entry_at (World.decisions w) n g = Some e ->
             DecisionEntry.firstSeen e <= Env.clock env (World.ticks w)) ->
  (forall e', entry_at (World.decisions
                          (Outcome.world (assessResultCaching env result searchee excl w)))
                       n g = Some e' ->
              DecisionEntry.firstSeen e' <= DecisionEntry.lastSeen e')
  /\ (forall e', entry_at (World.decisions
                             (Outcome.world (assessAndSaveResults env result searchee g excl w)))
                          n g = Some e' ->
                 DecisionEntry.lastSeen e' <= DecisionEntry.firstSeen e').
Proof.
  intros Hmono n g Hpast. split.
  - subst n g.
    view_cases (caching_viewP env result searchee excl w);
      cbn [Outcome.world reassessed_world cached_world World.decisions];
      rewrite entry_at_set_entry_eq; intros e' [= <-]; cbn.
    + apply Hmono. lia.
    + by apply Hpast.
    + by apply Hpast.
    + by apply Hpast.
  - rewrite assessAndSaveResults_eq. cbn [Outcome.world World.decisions].
    rewrite entry_at_set_entry_eq. intros e' [= <-]. cbn.
    apply Hmono. lia.
Qed.

Lemma online_clock_monotone : monotone (Env.clock online).
Proof. intros i j Hij. cbn. lia. Qed.

Lemma firstSeen_before_lastSeen_witness :
  DecisionEntry.firstSeen (DecisionEntry.mk FILE_TREE_MISMATCH 1000 5 None)
  <= DecisionEntry.lastSeen (DecisionEntry.mk FILE_TREE_MISMATCH 1000 5 None).
Proof.
  assert (Hpast : forall e,
    entry_at (World.decisions (stored FILE_TREE_MISMATCH None)) "Show.S01" "guid-1" = Some e ->
    DecisionEntry.firstSeen e <= Env.clock online (World.ticks (stored FILE_TREE_MISMATCH None))).
  { intros e He. vm_compute in He. injection He as <-. vm_compute. discriminate. }
  apply (proj1 (firstSeen_before_lastSeen online hit show [] (stored FILE_TREE_MISMATCH None)
                  online_clock_monotone Hpast)).
  vm_compute. reflexivity.
Defined.

Lemma filter_stages_log result stages :
  List.filter is_log (map (stage_event result) stages) = [].
Proof.
  induction stages as [|st l IH]; [done|].
  cbn [map List.filter]. by rewrite stage_event_not_log.
Qed.

Lemma filter_log_events d cached :
  List.filter is_log (log_events d cached) = log_events d cached.
Proof. by destruct d. Qed.

Lemma filter_write_events a : List.filter is_log (write_events a) = [].
Proof.
  unfold write_events.
  by destruct (ResultAssessment.decision a), (ResultAssessment.info a).
Qed.

(** X7: what an invocation logs.  A MATCH is never logged.  A rejection
    reached by the full assessment is logged once, as fresh; a rejection
    answered from the cache is logged once, as cached, unless the cached
    decision was MATCH (the flip to INFO_HASH_ALREADY_EXISTS), which is
    returned without any log line. *)
Theorem rejections_are_logged env result searchee excl w :
  let o := assessResultCaching env result searchee excl w in
  let d := ResultAssessment.decision (Outcome.value o) in
  let logged := List.filter is_log (Outcome.trace o) in
  (d = MATCH -> logged = [])
  /\ (d <> MATCH -> evaluates_stage (Outcome.trace o) = true ->
      logged = [EvLogReason d false])
  /\ (d <> MATCH -> evaluates_stage (Outcome.trace o) = false ->
      forall e, entry_at (World.decisions w)
                         (Searchee.name searchee) (ProwlarrResult.Guid result) = Some e ->
        logged = if bool_decide (DecisionEntry.decision e = MATCH) then []
                 else [EvLogReason d true]).
Proof.
  intros o d logged. subst o d logged.
  view_cases (caching_viewP env result searchee excl w);
    cbn [Outcome.value Outcome.trace ResultAssessment.decision].
  - rewrite !List.filter_app, filter_stages_log, filter_write_events, filter_log_events.
    rewrite evaluates_stage_app, stages_evaluated. cbn [app orb List.filter is_log].
    rewrite app_nil_r.
    split; [by intros ->|]. split; [|done].
    intros Hd _. by destruct (ResultAssessment.decision a).
  - split; [done|]. split; [done|].
    intros _ _ e0 He0. rewrite He in He0. injection He0 as <-.
    by rewrite bool_decide_eq_true_2.
  - split; [done|]. split; done.
  - rewrite List.filter_app, filter_log_events, log_no_stage. cbn [List.filter is_log].
    rewrite app_nil_r.
    split; [done|]. split; [done|].
    intros _ _ e0 He0. rewrite He in He0. injection He0 as <-.
    rewrite bool_decide_eq_false_2 by done.
    by destruct (DecisionEntry.decision e).
Qed.

Lemma rejections_are_logged_witness :
  List.filter is_log
    (Outcome.trace (assessResultCaching online hit show ["abc"%string]
                      (stored MATCH (Some "abc"%string))))
  = [].
Proof.
  apply (proj2 (proj2 (rejections_are_logged online hit show ["abc"%string]
                         (stored MATCH (Some "abc"%string))))
           ltac:(vm_compute; discriminate) eq_refl
           (DecisionEntry.mk MATCH 7 5 (Some "abc"%string)) eq_refl).
Defined.




Lemma invoke_rejection i w n g e :
  entry_at (World.decisions w) n g = Some e ->
  DecisionEntry.decision e <> DOWNLOAD_FAILED ->
  DecisionEntry.decision e <> MATCH ->
  (exists e', entry_at (World.decisions (Outcome.world (invoke i w))) n g = Some e'
              /\ DecisionEntry.decision e' = DecisionEntry.decision e
              /\ DecisionEntry.firstSeen e' = DecisionEntry.firstSeen e
              /\ DecisionEntry.infoHash e' = DecisionEntry.infoHash e)
  /\ (targets i n g ->
      Outcome.value (invoke i w) = ResultAssessment.mk (DecisionEntry.decision e) None
      /\ evaluates_stage (Outcome.trace (invoke i w)) = false
      /\ attempts_fetch (Outcome.trace (invoke i w)) = false).
Proof.
  intros He Hf Hm. unfold invoke.
  destruct (decide ((n, g) = (Searchee.name (Invocation.searchee i),
                              ProwlarrResult.Guid (Invocation.result i)))) as [[= -> ->]|Hne].
  - erewrite caching_rejection; [| exact He | done | done].
    cbn [Outcome.value Outcome.world Outcome.trace].
    rewrite entry_at_cached, log_no_stage, log_no_fetch.
    split; [eauto|done].
  - split.
    + destruct (caching_document (Invocation.env i) (Invocation.result i)
                  (Invocation.searchee i) (Invocation.excl i) w) as (e' & -> & _).
      rewrite entry_at_set_entry_ne, entry_at_ensure_partition by done. eauto.
    + intros [<- <-]. done.
Qed.

(** The decisions of a run are those of its outcomes. *)
Lemma run_all_run_log invs w :
  fst (run_all invs w)
  = map (fun io : Invocation.t * Outcome.t ResultAssessment.t =>
           (io.1, ResultAssessment.decision (Outcome.value io.2)))
        (run_log invs w).
Proof.
  revert w. induction invs as [|i rest IH]; intros w; [done|].
  cbn [run_all run_log fst map]. by rewrite IH.
Qed.

(** X9: a cached rejection other than DOWNLOAD_FAILED is permanent.
    Through any run of further invocations, whatever the candidate's size
    and link, the searchee's files, the tolerance, the exclusion set and the
    fetcher have become, every invocation for the pair returns the stored
    decision, with no metafile, without evaluating any stage and without
    calling the fetcher, and the entry keeps its decision, [firstSeen] and
    info hash. *)
Theorem cached_rejection_is_permanent n g e invs w :
  entry_at (World.decisions w) n g = Some e ->
  DecisionEntry.decision e <> DOWNLOAD_FAILED ->
  DecisionEntry.decision e <> MATCH ->
  (forall i o, (i, o) ∈ run_log invs w -> targets i n g ->
     Outcome.value o = ResultAssessment.mk (DecisionEntry.decision e) None
     /\ evaluates_stage (Outcome.trace o) = false
     /\ attempts_fetch (Outcome.trace o) = false)
  /\ (forall i d, (i, d) ∈ fst (run_all invs w) -> targets i n g -> d = DecisionEntry.decision e)
  /\ (exists e', entry_at (World.decisions (snd (run_all invs w))) n g = Some e'
                 /\ DecisionEntry.decision e' = DecisionEntry.decision e
                 /\ DecisionEntry.firstSeen e' = DecisionEntry.firstSeen e
                 /\ DecisionEntry.infoHash e' = DecisionEntry.infoHash e).
Proof.
  intros He Hf Hm.
  assert ((forall i o, (i, o) ∈ run_log invs w -> targets i n g ->
             Outcome.value o = ResultAssessment.mk (DecisionEntry.decision e) None
             /\ evaluates_stage (Outcome.trace o) = false
             /\ attempts_fetch (Outcome.trace o) = false)
          /\ (exists e', entry_at (World.decisions (snd (run_all invs w))) n g = Some e'
                 /\ DecisionEntry.decision e' = DecisionEntry.decision e
                 /\ DecisionEntry.firstSeen e' = DecisionEntry.firstSeen e
                 /\ DecisionEntry.infoHash e' = DecisionEntry.infoHash e)) as [Hlog Hfin].
  { revert w e He Hf Hm. induction invs as [|i rest IH]; intros w e He Hf Hm.
    - cbn. split; [|eauto].
      intros i o Hin. by apply not_elem_of_nil in Hin.
    - cbn [run_all run_log fst snd].
      destruct (invoke_rejection i w n g e He Hf Hm) as [(e' & He' & Hd' & Hfs' & Hih') Hret].
      destruct (IH _ _ He') as [IH1 (e2 & He2 & Hd2 & Hfs2 & Hih2)]; [congruence..|].
      split.
      + intros j o Hin Ht. apply elem_of_cons in Hin as [Heq|Hin].
        * apply pair_equal_spec in Heq as [-> ->]. by apply Hret.
        * rewrite <- Hd'. by eapply IH1.
      + exists e2. split; [done|]. split; [congruence|]. split; congruence. }
  split; [exact Hlog|]. split; [|exact Hfin].
  intros i d Hin Ht. rewrite run_all_run_log in Hin.
  apply list_elem_of_fmap in Hin as ([i' o] & Heq & Hin).
  apply pair_equal_spec in Heq as [-> ->]. cbn.
  by rewrite (proj1 (Hlog _ _ Hin Ht)).
Qed.

Lemma cached_rejection_is_permanent_witness :
  let i1 := Invocation.mk online hit show [] in
  let i2 := Invocation.mk offline hit show ["abc"%string] in
  let w := stored SIZE_MISMATCH None in
  let o2 := invoke i2 (Outcome.world (invoke i1 w)) in
  (Outcome.value o2 = ResultAssessment.mk SIZE_MISMATCH None
   /\ evaluates_stage (Outcome.trace o2) = false
   /\ attempts_fetch (Outcome.trace o2) = false)
  /\ exists e',
       entry_at (World.decisions (snd (run_all [i1; i2] w))) "Show.S01" "guid-1" = Some e'
       /\ DecisionEntry.decision e' = SIZE_MISMATCH
       /\ DecisionEntry.firstSeen e' = 5
       /\ DecisionEntry.infoHash e' = None.
Proof.
  intros i1 i2 w o2.
  destruct (cached_rejection_is_permanent "Show.S01" "guid-1"
              (DecisionEntry.mk SIZE_MISMATCH 7 5 None) [i1; i2] w
              eq_refl ltac:(discriminate) ltac:(discriminate)) as (Hlog & _ & Hfin).
  split; [|exact Hfin].
  apply (Hlog i2 o2).
  - cbn [run_log]. apply list_elem_of_further, list_elem_of_here.
  - split; reflexivity.
Defined.

(** * Further properties of the comparator and the size filter *)

(** X10: the comparator looks at the two file lists as sets.  A candidate
    without files matches every searchee, a searchee without files is
    matched only by such a candidate, and neither the order nor the
    repetition of files in either list changes the answer. *)
Theorem compareFileTrees_sets candidate searchee :
  (Metafile.files candidate = [] -> compareFileTrees candidate searchee = true)
  /\ (Searchee.files searchee = [] ->
      (compareFileTrees candidate searchee = true <-> Metafile.files candidate = []))
  /\ (forall candidate' searchee',
        (forall f, f ∈ Metafile.files candidate' <-> f ∈ Metafile.files candidate) ->
        (forall f, f ∈ Searchee.files searchee' <-> f ∈ Searchee.files searchee) ->
        compareFileTrees candidate' searchee' = compareFileTrees candidate searchee).
Proof.
  split; [|split].
  - intros Hc. unfold compareFileTrees. by rewrite Hc.
  - intros Hs. rewrite compareFileTrees_spec, Hs. split.
    + intros H. destruct (Metafile.files candidate) as [|a l]; [done|].
      destruct (H a) as (b & Hb & _); [apply list_elem_of_here|].
      by apply not_elem_of_nil in Hb.
    + intros -> a Ha. by apply not_elem_of_nil in Ha.
  - intros c' s' Hc Hs.
    apply eq_true_iff_eq. rewrite !compareFileTrees_spec. split.
    + intros H a Ha. apply Hc in Ha. destruct (H a Ha) as (b & Hb & Heq).
      exists b. split; [by apply Hs|done].
    + intros H a Ha. apply Hc in Ha. destruct (H a Ha) as (b & Hb & Heq).
      exists b. split; [by apply Hs|done].
Qed.

Lemma compareFileTrees_sets_witness :
  compareFileTrees (Metafile.mk "abc" []) show = true.
Proof.
  apply (proj1 (compareFileTrees_sets (Metafile.mk "abc" []) show)). reflexivity.
Defined.

(** X11: matching is reflexive and transitive.  A metafile matches the
    searchee made of its own files, and if [a] matches the files of [b] and
    [b] matches a searchee, then [a] matches that searchee. *)
Theorem compareFileTrees_preorder a b searchee name length :
  compareFileTrees a (Searchee.mk name (Metafile.files a) length) = true
  /\ (compareFileTrees a (Searchee.mk name (Metafile.files b) length) = true ->
      compareFileTrees b searchee = true ->
      compareFileTrees a searchee = true).
Proof.
  split.
  - apply compareFileTrees_spec. intros f Hf. by exists f.
  - rewrite !compareFileTrees_spec. cbn. intros Hab Hbs f Hf.
    destruct (Hab f Hf) as (f' & Hf' & Hp & Hl).
    destruct (Hbs f' Hf') as (f'' & Hf'' & Hp' & Hl').
    exists f''. split; [done|]. split; congruence.
Qed.

Lemma compareFileTrees_preorder_witness :
  compareFileTrees (Metafile.mk "x" [sample]) show = true.
Proof.
  apply (proj2 (compareFileTrees_preorder (Metafile.mk "x" [sample])
                  (Metafile.mk "y" [sample; episode]) show "" 0%float));
    vm_compute; reflexivity.
Defined.

Lemma SFleb_trans a b c : SFleb a b = true -> SFleb b c = true -> SFleb a c = true.
Proof.
  unfold SFleb, SFcompare.
  destruct a as [[]|[]| |[] m1 e1], b as [[]|[]| |[] m2 e2], c as [[]|[]| |[] m3 e3];
    try reflexivity; try discriminate;
    change (Pos.compare_cont Eq) with Pos.compare;
    destruct (Z.compare_spec e1 e2), (Z.compare_spec e2 e3), (Z.compare_spec e1 e3);
    try reflexivity; try discriminate; try lia; subst;
    destruct (Pos.compare_spec m1 m2), (Pos.compare_spec m2 m3), (Pos.compare_spec m1 m3);
    try reflexivity; try discriminate; try lia; cbn; try discriminate; try reflexivity.
Qed.

Lemma leb_trans x y z :
  (x <=? y)%float = true -> (y <=? z)%float = true -> (x <=? z)%float = true.
Proof. rewrite !leb_spec. apply SFleb_trans. Qed.

(** X12: the sizes the filter accepts form an interval of doubles: a size
    between two accepted sizes is accepted, and some size is accepted
    exactly when the computed lower bound is at most the computed upper
    bound (so no size at all is accepted when a bound is NaN or the
    tolerance makes the lower bound exceed the upper one). *)
Theorem size_window_is_an_interval env searchee :
  let length := Searchee.length searchee in
  let lowerBound := (length - Env.fuzzySizeThreshold env * length)%float in
  let upperBound := (length + Env.fuzzySizeThreshold env * length)%float in
  (forall s1 s s2,
     sizeDoesMatch env s1 searchee = true ->
     sizeDoesMatch env s2 searchee = true ->
     (s1 <=? s)%float = true -> (s <=? s2)%float = true ->
     sizeDoesMatch env s searchee = true)
  /\ ((exists s, sizeDoesMatch env s searchee = true) <->
      (lowerBound <=? upperBound)%float = true).
Proof.
  intros length lowerBound upperBound. unfold sizeDoesMatch.
  fold length lowerBound upperBound. split.
  - intros s1 s s2 [H1 _]%andb_true_iff [_ H2]%andb_true_iff Hs1 Hs2.
    apply andb_true_iff. split; eapply leb_trans; eauto.
  - split.
    + intros (s & [H1 H2]%andb_true_iff). by eapply leb_trans.
    + intros Hle. exists lowerBound.
      by rewrite (leb_refl_of_leb _ _ Hle), Hle.
Qed.

Lemma size_window_is_an_interval_witness :
  sizeDoesMatch (size_env threshold) 1000000000 (sized 1000000000) = true.
Proof.
  apply (proj1 (size_window_is_an_interval (size_env threshold) (sized 1000000000))
           980000000%float 1000000000%float 1020000000%float);
    vm_compute; reflexivity.
Defined.

Lemma SFcompare_nan a : SFcompare a a = Some Eq \/ a = S754_nan.
Proof.
  destruct a as [[]|[]| |[] m e]; try (by left); try (by right); left; cbn;
    by rewrite Z.compare_refl, Pos.compare_cont_refl.
Qed.

Lemma is_nan_Prim2SF x : is_nan x = true -> Prim2SF x = S754_nan.
Proof.
  unfold is_nan. rewrite FloatAxioms.eqb_spec. unfold SFeqb.
  destruct (SFcompare_nan (Prim2SF x)) as [-> | ->]; done.
Qed.

Lemma leb_nan_l x y : is_nan x = true -> (x <=? y)%float = false.
Proof. intros Hx%is_nan_Prim2SF. rewrite leb_spec, Hx. reflexivity. Qed.

Lemma leb_nan_r x y : is_nan y = true -> (x <=? y)%float = false.
Proof.
  intros Hy%is_nan_Prim2SF. rewrite leb_spec, Hy.
  unfold SFleb. by destruct (Prim2SF x).
Qed.

Lemma sub_nan_l x y : is_nan x = true -> is_nan (x - y)%float = true.
Proof.
  intros Hx%is_nan_Prim2SF. unfold is_nan. rewrite FloatAxioms.eqb_spec, sub_spec, Hx. reflexivity.
Qed.

Lemma sub_nan_r x y : is_nan y = true -> is_nan (x - y)%float = true.
Proof.
  intros Hy%is_nan_Prim2SF. unfold is_nan. rewrite FloatAxioms.eqb_spec, sub_spec, Hy.
  by destruct (Prim2SF x).
Qed.

Lemma mul_nan_l x y : is_nan x = true -> is_nan (x * y)%float = true.
Proof.
  intros Hx%is_nan_Prim2SF. unfold is_nan. rewrite FloatAxioms.eqb_spec, mul_spec, Hx. reflexivity.
Qed.

(** X13: a size that is not a number is rejected, and when the searchee's
    length or the configured tolerance is not a number every size is
    rejected. *)
Theorem nan_is_rejected env resultSize searchee :
  is_nan resultSize = true
  \/ is_nan (Searchee.length searchee) = true
  \/ is_nan (Env.fuzzySizeThreshold env) = true ->
  sizeDoesMatch env resultSize searchee = false.
Proof.
  unfold sizeDoesMatch. intros [Hs|[HL|Ht]].
  - by rewrite (leb_nan_r _ _ Hs).
  - by rewrite (leb_nan_l _ resultSize (sub_nan_l _ _ HL)).
  - by rewrite (leb_nan_l _ resultSize (sub_nan_r _ _ (mul_nan_l _ _ Ht))).
Qed.

Lemma nan_is_rejected_witness :
  sizeDoesMatch (size_env threshold) nan (sized 1000000000) = false.
Proof.
  apply (nan_is_rejected (size_env threshold) nan (sized 1000000000)).
  left. reflexivity.
Defined.

(** * Search titles *)

Lemma space_isWhiteSpace : isWhiteSpace space = true.
Proof. reflexivity. Qed.

Lemma space_not_punctuation : isPunctuation space = false.
Proof. reflexivity. Qed.

Lemma punctuation_not_whitespace c : isPunctuation c = true -> isWhiteSpace c = false.
Proof.
  unfold isPunctuation. rewrite !orb_true_iff, !N.eqb_eq.
  intros [[[[->| ->]| ->]| ->]| ->]; reflexivity.
Qed.

Example cleanTitle_example : cleanTitle raw_title = cleaned_title.
Proof. reflexivity. Qed.

(** After collapsing, every code unit is a space or a code unit of the
    input that is not white space. *)
Lemma collapseFrom_elements b s :
  Forall (fun c => c = space \/ (c ∈ s /\ isWhiteSpace c = false)) (collapseFrom b s).
Proof.
  revert b. induction s as [|c rest IH]; intros b; cbn; [constructor|].
  destruct (isWhiteSpace c) eqn:Hc.
  - assert (Hrest : Forall (fun c0 => c0 = space \/ (c0 ∈ c :: rest /\ isWhiteSpace c0 = false))
                           (collapseFrom true rest)).
    { eapply Forall_impl; [apply IH|]. intros x [->|[Hx Hw]]; [by left|right].
      split; [by apply elem_of_cons; right|done]. }
    destruct b; [done|]. constructor; [by left|done].
  - constructor.
    + right. split; [apply list_elem_of_here|done].
    + eapply Forall_impl; [apply IH|]. intros x [->|[Hx Hw]]; [by left|right].
      split; [by apply elem_of_cons; right|done].
Qed.

Lemma collapseFrom_true_head s : head (collapseFrom true s) <> Some space.
Proof.
  induction s as [|c rest IH]; cbn; [done|].
  destruct (isWhiteSpace c) eqn:Hc; [done|]. cbn.
  intros [= ->]. by rewrite space_isWhiteSpace in Hc.
Qed.

Lemma collapseFrom_single b s l1 l2 : collapseFrom b s <> l1 ++ [space; space] ++ l2.
Proof.
  revert b l1. induction s as [|c rest IH]; intros b l1; cbn.
  - by destruct l1.
  - destruct (isWhiteSpace c) eqn:Hc.
    + destruct b; [apply IH|].
      destruct l1 as [|x l1]; cbn.
      * intros [= Heq]. pose proof (collapseFrom_true_head rest) as Hh.
        by rewrite Heq in Hh.
      * intros [= _ Heq]. by apply IH in Heq.
    + destruct l1 as [|x l1]; cbn.
      * intros [= -> _]. by rewrite space_isWhiteSpace in Hc.
      * intros [= _ Heq]. by apply IH in Heq.
Qed.

(** [trimStart] keeps a suffix that does not start with white space. *)
Lemma trimStart_suffix s : exists pre, s = pre ++ trimStart s.
Proof.
  induction s as [|c rest [pre IH]]; cbn; [by exists []|].
  destruct (isWhiteSpace c).
  - exists (c :: pre). cbn. by rewrite <- IH.
  - by exists [].
Qed.

Lemma trimStart_head s c : head (trimStart s) = Some c -> isWhiteSpace c = false.
Proof.
  induction s as [|x rest IH]; cbn; [done|].
  destruct (isWhiteSpace x) eqn:Hx; [done|]. cbn. by intros [= <-].
Qed.

(** [trimEnd] keeps a prefix that does not end with white space. *)
Lemma trimEnd_prefix s : exists post, s = trimEnd s ++ post.
Proof.
  induction s as [|c rest [post IH]]; cbn; [by exists []|].
  destruct (trimEnd rest) as [|k kept] eqn:Hk.
  - destruct (isWhiteSpace c).
    + exists (c :: rest). done.
    + exists rest. done.
  - exists post. cbn. by rewrite IH at 1.
Qed.

Lemma trimEnd_last s c : last (trimEnd s) = Some c -> isWhiteSpace c = false.
Proof.
  induction s as [|x rest IH]; cbn; [done|].
  destruct (trimEnd rest) as [|k kept] eqn:Hk.
  - destruct (isWhiteSpace x) eqn:Hx; cbn; [done|]. by intros [= <-].
  - rewrite last_cons. destruct (last (k :: kept)) eqn:Hl.
    + intros [= <-]. by apply IH.
    + by apply last_None in Hl.
Qed.

Lemma trimEnd_head s c :
  head s = Some c -> isWhiteSpace c = false -> head (trimEnd s) = Some c.
Proof.
  destruct s as [|x rest]; cbn; [done|]. intros [= ->] Hc.
  destruct (trimEnd rest); [by rewrite Hc|done].
Qed.

Lemma trim_infix s : exists pre post, s = pre ++ trim s ++ post.
Proof.
  unfold trim. destruct (trimStart_suffix s) as [pre Hpre].
  destruct (trimEnd_prefix (trimStart s)) as [post Hpost].
  exists pre, post. by rewrite <- Hpost.
Qed.

Lemma trim_head s : head (trim s) <> Some space.
Proof.
  unfold trim. destruct (trimStart s) as [|c rest] eqn:Hs; [done|].
  pose proof (trimStart_head s c) as Hc. rewrite Hs in Hc. specialize (Hc eq_refl).
  rewrite (trimEnd_head (c :: rest) c eq_refl Hc).
  intros [= ->]. by rewrite space_isWhiteSpace in Hc.
Qed.

Lemma trim_last s : last (trim s) <> Some space.
Proof.
  unfold trim. intros Hl. apply trimEnd_last in Hl. by rewrite space_isWhiteSpace in Hl.
Qed.

Lemma replacePunctuation_elements s :
  Forall (fun c => isPunctuation c = false) (replacePunctuation s).
Proof.
  unfold replacePunctuation. apply Forall_fmap, Forall_forall. intros c _. cbn.
  by destruct (isPunctuation c) eqn:Hc.
Qed.

Lemma cleanTitle_clean s : clean (cleanTitle s).
Proof.
  unfold cleanTitle.
  destruct (trim_infix (collapseWhiteSpace (replacePunctuation s))) as (pre & post & Heq).
  split; [|split; [apply trim_head|split; [apply trim_last|]]].
  - pose proof (collapseFrom_elements false (replacePunctuation s)) as Hel.
    fold (collapseWhiteSpace (replacePunctuation s)) in Hel. rewrite Heq in Hel.
    apply Forall_app in Hel as [_ Hel]. apply Forall_app in Hel as [Hel _].
    eapply Forall_impl; [exact Hel|]. cbn. intros c [->|[Hin Hw]].
    + done.
    + split; [|by rewrite Hw].
      pose proof (replacePunctuation_elements s) as Hp.
      rewrite Forall_forall in Hp. by apply Hp.
  - intros l1 l2 Hr.
    apply (collapseFrom_single false (replacePunctuation s) (pre ++ l1) (l2 ++ post)).
    fold (collapseWhiteSpace (replacePunctuation s)).
    rewrite Heq at 1. rewrite Hr. by rewrite <- !app_assoc.
Qed.

(** X14: whatever the three regular expressions match, the query text that
    [reformatTitleForSearching] returns contains none of the characters
    [.()[]], no white space other than the space, no space at its start or
    end and never two spaces in a row. *)
Theorem reformatTitleForSearching_clean SEASON_REGEX MOVIE_REGEX EP_REGEX name :
  clean (reformatTitleForSearching SEASON_REGEX MOVIE_REGEX EP_REGEX name).
Proof. unfold reformatTitleForSearching. apply cleanTitle_clean. Qed.

Lemma replacePunctuation_id s :
  Forall (fun c => isPunctuation c = false) s -> replacePunctuation s = s.
Proof.
  unfold replacePunctuation. induction 1 as [|c l Hc _ IH]; cbn; [done|].
  by rewrite Hc, IH.
Qed.

(** Collapsing changes nothing in a text whose white space is single
    spaces, none of them first when a run is already open. *)
Lemma collapseFrom_id b s :
  Forall (fun c => isWhiteSpace c = true -> c = space) s ->
  (forall l1 l2, s <> l1 ++ [space; space] ++ l2) ->
  (b = true -> head s <> Some space) ->
  collapseFrom b s = s.
Proof.
  revert b. induction s as [|c rest IH]; intros b Hws Hsingle Hhead; cbn; [done|].
  apply Forall_cons in Hws as [Hc Hws].
  assert (Hrest : forall l1 l2, rest <> l1 ++ [space; space] ++ l2).
  { intros l1 l2 ->. by apply (Hsingle (c :: l1) l2). }
  destruct (isWhiteSpace c) eqn:Hw.
  - specialize (Hc eq_refl). subst c.
    destruct b; [by destruct Hhead|].
    f_equal. apply IH; [done|done|].
    intros _ Hh. destruct rest as [|x rest']; [done|]. cbn in Hh. injection Hh as ->.
    by apply (Hsingle [] rest').
  - f_equal. by apply IH.
Qed.

Lemma trimStart_id s : head s <> Some space ->
  Forall (fun c => isWhiteSpace c = true -> c = space) s -> trimStart s = s.
Proof.
  destruct s as [|c rest]; cbn; [done|]. intros Hh Hws.
  apply Forall_cons in Hws as [Hc _].
  destruct (isWhiteSpace c); [|done]. by rewrite Hc in Hh.
Qed.

Lemma trimEnd_id s : last s <> Some space ->
  Forall (fun c => isWhiteSpace c = true -> c = space) s -> trimEnd s = s.
Proof.
  induction s as [|c rest IH]; cbn; [done|]. intros Hl Hws.
  apply Forall_cons in Hws as [Hc Hws].
  destruct rest as [|x rest'].
  - cbn. destruct (isWhiteSpace c); [|done]. by rewrite Hc in Hl.
  - rewrite IH; [done| |done]. by rewrite last_cons_cons in Hl.
Qed.

Lemma cleanTitle_id r : clean r -> cleanTitle r = r.
Proof.
  intros (Hel & Hh & Hl & Hsingle). unfold cleanTitle, trim, collapseWhiteSpace.
  assert (Hws : Forall (fun c => isWhiteSpace c = true -> c = space) r).
  { eapply Forall_impl; [exact Hel|]. by intros c [_ ?]. }
  rewrite replacePunctuation_id by (eapply Forall_impl; [exact Hel|]; by intros c [? _]).
  rewrite collapseFrom_id by done.
  rewrite trimStart_id by done.
  by apply trimEnd_id.
Qed.

Lemma letters_app s1 s2 : letters (s1 ++ s2) = letters s1 ++ letters s2.
Proof. apply List.filter_app. Qed.

Lemma letters_replacePunctuation s : letters (replacePunctuation s) = letters s.
Proof.
  unfold letters, replacePunctuation. induction s as [|c rest IH]; cbn; [done|].
  rewrite IH. destruct (isPunctuation c) eqn:Hp; cbn.
  - by rewrite orb_true_r.
  - by rewrite Hp.
Qed.

Lemma letters_collapseFrom b s : letters (collapseFrom b s) = letters s.
Proof.
  unfold letters. revert b. induction s as [|c rest IH]; intros b; cbn; [done|].
  destruct (isWhiteSpace c) eqn:Hw; cbn.
  - destruct b; cbn; by rewrite IH.
  - rewrite Hw. cbn. by rewrite IH.
Qed.

Lemma letters_trimStart s : letters (trimStart s) = letters s.
Proof.
  unfold letters. induction s as [|c rest IH]; cbn; [done|].
  destruct (isWhiteSpace c) eqn:Hw; cbn; [done|]. by rewrite Hw.
Qed.

Lemma letters_trimEnd s : letters (trimEnd s) = letters s.
Proof.
  unfold letters. induction s as [|c rest IH]; cbn; [done|].
  destruct (trimEnd rest) as [|k kept] eqn:Hk.
  - rewrite <- IH. destruct (isWhiteSpace c) eqn:Hw; cbn; [done|]. by rewrite Hw.
  - cbn [List.filter]. by rewrite <- IH.
Qed.

Lemma letters_cleanTitle s : letters (cleanTitle s) = letters s.
Proof.
  unfold cleanTitle, trim, collapseWhiteSpace.
  by rewrite letters_trimEnd, letters_trimStart, letters_collapseFrom,
    letters_replacePunctuation.
Qed.

(** X15: what [reformatTitleForSearching] keeps.  The text it cleans is the
    episode match if there is one, else the season match, else the movie
    match, else the whole name; of that text every code unit that is
    neither white space nor one of [.()[]] is kept, in order, and nothing
    else is added but single spaces.  A name that no expression matches
    and that is already clean is returned unchanged. *)
Theorem reformatTitleForSearching_keeps SEASON_REGEX MOVIE_REGEX EP_REGEX name :
  let r := reformatTitleForSearching SEASON_REGEX MOVIE_REGEX EP_REGEX name in
  (forall m, EP_REGEX name = Some m -> r = cleanTitle m /\ letters r = letters m)
  /\ (EP_REGEX name = None ->
      forall m, SEASON_REGEX name = Some m -> r = cleanTitle m /\ letters r = letters m)
  /\ (EP_REGEX name = None -> SEASON_REGEX name = None ->
      forall m, MOVIE_REGEX name = Some m -> r = cleanTitle m /\ letters r = letters m)
  /\ (EP_REGEX name = None -> SEASON_REGEX name = None -> MOVIE_REGEX name = None ->
      letters r = letters name /\ (clean name -> r = name))
  /\ Forall (fun c => c = space \/ c ∈ letters r) r.
Proof.
  intros r. subst r. unfold reformatTitleForSearching.
  split; [|split; [|split; [|split]]].
  - intros m ->. by rewrite letters_cleanTitle.
  - intros -> m ->. by rewrite letters_cleanTitle.
  - intros -> -> m ->. by rewrite letters_cleanTitle.
  - intros -> -> ->. split; [apply letters_cleanTitle|apply cleanTitle_id].
  - set (m := match EP_REGEX name with Some _ => _ | None => _ end).
    destruct (cleanTitle_clean m) as (Hel & _).
    rewrite Forall_forall in Hel. apply Forall_forall. intros c Hc.
    destruct (Hel c Hc) as [Hp Hw].
    destruct (isWhiteSpace c) eqn:Hws; [left; by apply Hw|right].
    unfold letters. apply list_elem_of_In, filter_In. split; [by apply list_elem_of_In|].
    by rewrite Hws, Hp.
Qed.

Lemma reformatTitleForSearching_keeps_witness :
  reformatTitleForSearching (fun _ => None) (fun _ => None) (fun _ => None) cleaned_title
  = cleaned_title.
Proof.
  apply (proj1 (proj2 (proj2 (proj2 (reformatTitleForSearching_keeps
            (fun _ => None) (fun _ => None) (fun _ => None) cleaned_title))))
           eq_refl eq_refl eq_refl).
  exact (cleanTitle_clean raw_title).
Defined.

(** * Edge cases of the size filter and of the exclusion set *)

Lemma is_zero_Prim2SF t : is_zero t = true -> exists s, Prim2SF t = S754_zero s.
Proof.
  unfold is_zero. rewrite FloatAxioms.eqb_spec.
  change (Prim2SF zero) with (S754_zero false). unfold SFeqb.
  destruct (Prim2SF t) as [s| [] | |[] m e]; try done. eauto.
Qed.

Lemma is_finite_Prim2SF x :
  is_finite x = true ->
  (exists s, Prim2SF x = S754_zero s) \/ (exists s m e, Prim2SF x = S754_finite s m e).
Proof.
  unfold is_finite, is_nan, is_infinity.
  rewrite !FloatAxioms.eqb_spec, abs_spec.
  change (Prim2SF infinity) with (S754_infinity false).
  destruct (Prim2SF x) as [s| [] | |s m e]; cbn; try done; eauto 6.
Qed.

Lemma SFleb_antisym a b : SFleb a b && SFleb b a = SFeqb a b.
Proof.
  unfold SFleb, SFeqb. rewrite (SFcompare_antisym a b).
  by destruct (SFcompare a b) as [[]|].
Qed.

Lemma SFeqb_sym a b : SFeqb a b = SFeqb b a.
Proof.
  unfold SFeqb. rewrite (SFcompare_antisym b a).
  by destruct (SFcompare b a) as [[]|].
Qed.

(** X16: with a tolerance of zero and a finite length, the filter accepts
    exactly the sizes equal to the length. *)
Theorem zero_tolerance_is_equality env resultSize searchee :
  is_zero (Env.fuzzySizeThreshold env) = true ->
  is_finite (Searchee.length searchee) = true ->
  sizeDoesMatch env resultSize searchee = (resultSize =? Searchee.length searchee)%float.
Proof.
  intros [st Ht]%is_zero_Prim2SF HL%is_finite_Prim2SF. unfold sizeDoesMatch.
  rewrite !leb_spec, FloatAxioms.eqb_spec, sub_spec, add_spec, mul_spec, Ht.
  unfold SF64sub, SF64add, SF64mul.
  destruct HL as [[sl HL]|(sl & m & e & HL)]; rewrite HL.
  - destruct st, sl, (Prim2SF resultSize) as [[]|[]| |[] m' e']; reflexivity.
  - cbn [SFmul SFsub SFadd]. rewrite andb_comm, SFleb_antisym. reflexivity.
Qed.

Lemma zero_tolerance_is_equality_witness :
  sizeDoesMatch (size_env 0) 1000000001 (sized 1000000000)
  = (1000000001 =? Searchee.length (sized 1000000000))%float.
Proof.
  apply (zero_tolerance_is_equality (size_env 0) 1000000001 (sized 1000000000));
    reflexivity.
Defined.

(** X17: the exclusion set can only turn a fresh decision into
    INFO_HASH_ALREADY_EXISTS.  For one candidate and searchee, with a
    larger exclusion set the full assessment gives the same decision or
    gives INFO_HASH_ALREADY_EXISTS where it gave MATCH or
    FILE_TREE_MISMATCH; with an empty exclusion set it never gives
    INFO_HASH_ALREADY_EXISTS. *)
Theorem exclusion_only_excludes env result searchee excl excl' w :
  excl ⊆ excl' ->
  let d := ResultAssessment.decision
             (Outcome.value (assessResultHelper env result searchee excl w)) in
  let d' := ResultAssessment.decision
              (Outcome.value (assessResultHelper env result searchee excl' w)) in
  (d' = d
   \/ (d' = INFO_HASH_ALREADY_EXISTS /\ (d = MATCH \/ d = FILE_TREE_MISMATCH)))
  /\ (excl' = [] -> d' <> INFO_HASH_ALREADY_EXISTS).
Proof.
  intros Hsub d d'. subst d d'. rewrite !assessResultHelper_staged.
  cbn [Outcome.value]. unfold staged_assessment, first_failing.
  cbn [stage_order List.find stage_passes].
  destruct (sizeDoesMatch env _ searchee); cbn -[includes]; [|split; [by left|done]].
  case_bool_decide as HL; cbn -[includes]; [|split; [by left|done]].
  case_bool_decide as HF; cbn -[includes]; [|split; [by left|done]].
  destruct HF as [info ->]. cbn -[includes].
  destruct (includes excl (Some (Metafile.infoHash info))) eqn:Hx;
    destruct (includes excl' (Some (Metafile.infoHash info))) eqn:Hx'; cbn -[includes].
  - split; [by left|]. intros ->. done.
  - exfalso. cbn in Hx, Hx'. apply bool_decide_eq_true in Hx.
    apply bool_decide_eq_false in Hx'. by apply Hx', Hsub.
  - split; [|intros ->; done].
    right. split; [done|]. by destruct (compareFileTrees info searchee); [left|right].
  - split; [by left|]. by destruct (compareFileTrees info searchee).
Qed.

Lemma exclusion_only_excludes_witness :
  let d := ResultAssessment.decision
             (Outcome.value (assessResultHelper online hit show [] empty_world)) in
  let d' := ResultAssessment.decision
              (Outcome.value (assessResultHelper online hit show ["abc"%string] empty_world)) in
  (d' = d
   \/ (d' = INFO_HASH_ALREADY_EXISTS /\ (d = MATCH \/ d = FILE_TREE_MISMATCH)))
  /\ (["abc"%string] = [] -> d' <> INFO_HASH_ALREADY_EXISTS).
Proof.
  apply (exclusion_only_excludes online hit show [] ["abc"%string] empty_world).
  apply list_subseteq_nil.
Defined.

(** * Retrying a failed download *)




